(** * RFID tunnel demo: extractor, read aggregator, realtime channel and
      case ("maleta") reconciliation

    Shallow embedding of the TypeScript components [Lectura]
    (pages/demo-tunel-rfid/lectura/lectura.ts) and [Maleta] (the case screen),
    followed by the properties of the specification that are settled on it.

    Conventions of the embedding
    - A JavaScript string is the list of its UTF-16 code units ([list N]);
      [length] is then exactly the JavaScript [.length].
    - A decoded payload is a value of [json]; an object keeps its properties
      in enumeration order (the order of [Object.values]).
    - Counters ([count], [totalReads], [eventsReceived]) are natural numbers:
      JavaScript numbers are exact on integers below 2^53, a bound no run of
      the page reaches.
    - What the browser supplies (the clock, [JSON.parse], the [readyState] of
      a transport when a callback fires) is an input of the embedded
      function. *)

From Stdlib Require Import NArith String Ascii List Bool Decimal Lia.
From Stdlib Require Import Floats.PrimFloat.
From stdpp Require Import gmap list fin_maps strings.

Set Default Proof Using "Type".
Set Warnings "-register-all".

(* ===================================================================== *)
(** ** JavaScript strings *)
(* ===================================================================== *)

Module JsString.

Abbreviation jsstring := (list N).

(** A string literal of the source (ASCII only). *)
Definition lit (s : string) : jsstring :=
  map N_of_ascii (list_ascii_of_string s).

Definition LF : N := 10.
Definition CR : N := 13.

(** ECMAScript WhiteSpace and LineTerminator code points, the characters
    [String.prototype.trim] strips. *)
Definition is_white (c : N) : bool :=
  match c with
  | 9 | 10 | 11 | 12 | 13 | 32 | 160 | 5760
  | 8232 | 8233 | 8239 | 8287 | 12288 | 65279 => true
  | _ => (8192 <=? c) && (c <=? 8202)
  end%N.

Fixpoint trimStart (s : jsstring) : jsstring :=
  match s with
  | [] => []
  | c :: r => if is_white c then trimStart r else s
  end.

Definition trimEnd (s : jsstring) : jsstring := rev (trimStart (rev s)).

(** [s.trim()] *)
Definition trim (s : jsstring) : jsstring := trimEnd (trimStart s).

(** Truthiness of a string: non-empty. *)
Definition truthy_str (s : jsstring) : bool :=
  match s with [] => false | _ :: _ => true end.

(** [s.startsWith(p)] *)
Fixpoint startsWith (p s : jsstring) : bool :=
  match p, s with
  | [], _ => true
  | _ :: _, [] => false
  | a :: p', b :: s' => if decide (a = b) then startsWith p' s' else false
  end.

(** [s.slice(n)] for [0 <= n] *)
Definition slice (n : nat) (s : jsstring) : jsstring := drop n s.

(** [l.includes(x)] on an array of strings *)
Definition includes (l : list jsstring) (x : jsstring) : bool :=
  bool_decide (x ∈ l).

(** The character class of the regular expression [/^[0-9A-Fa-f\-]+$/]. *)
Definition is_hex_or_hyphen (c : N) : bool :=
  ((48 <=? c) && (c <=? 57) || (65 <=? c) && (c <=? 70)
   || (97 <=? c) && (c <=? 102) || (c =? 45))%N.

Definition test_hex (s : jsstring) : bool :=
  truthy_str s && forallb is_hex_or_hyphen s.

(** Decimal rendering of a non-negative integer, as template literals do. *)
Fixpoint digits (u : Decimal.uint) : jsstring :=
  match u with
  | Nil => []
  | D0 r => 48%N :: digits r | D1 r => 49%N :: digits r
  | D2 r => 50%N :: digits r | D3 r => 51%N :: digits r
  | D4 r => 52%N :: digits r | D5 r => 53%N :: digits r
  | D6 r => 54%N :: digits r | D7 r => 55%N :: digits r
  | D8 r => 56%N :: digits r | D9 r => 57%N :: digits r
  end.

Definition decimal (n : nat) : jsstring := digits (Nat.to_uint n).

(** Only white space. *)
Definition blank (s : jsstring) : Prop := Forall (λ c, is_white c = true) s.

(** No white space at either end. *)
Definition trimmed (m : jsstring) : Prop :=
  match m with [] => True | c :: _ => is_white c = false end
  ∧ match rev m with [] => True | c :: _ => is_white c = false end.

End JsString.
Import JsString.

(* ===================================================================== *)
(** ** Decoded payloads *)
(* ===================================================================== *)

Inductive json : Type :=
| JNull
| JBool (b : bool)
| JNum (x : float)
| JStr (s : jsstring)
| JArr (items : list json)
| JObj (fields : list (jsstring * json)).

(** [d[key]]: [None] stands for [undefined]. *)
Fixpoint get (d : list (jsstring * json)) (key : jsstring) : option json :=
  match d with
  | [] => None
  | (k, v) :: r => if decide (k = key) then Some v else get r key
  end.

(** JavaScript truthiness of a decoded value. *)
Definition truthy (v : json) : bool :=
  match v with
  | JNull => false
  | JBool b => b
  | JNum x => negb (is_zero x || is_nan x)
  | JStr s => truthy_str s
  | JArr _ | JObj _ => true
  end.

(* ===================================================================== *)
(** ** Tag identifier extractor (lectura.ts, [extractTagId],
       [extractAllTagIds]) *)
(* ===================================================================== *)

Module Extractor.

(** [if (id) return id;] : a result is kept when it is a non-empty string. *)
Definition keep (r : option jsstring) : option jsstring :=
  match r with
  | Some id => if truthy_str id then Some id else None
  | None => None
  end.

(** [for (const x of l) { const id = f(x); if (id) return id; }], falling
    through with [None]. *)
Definition for_first {A} (f : A → option jsstring) : list A → option jsstring :=
  fix go (l : list A) : option jsstring :=
    match l with
    | [] => None
    | x :: r => match keep (f x) with
                | Some id => Some id
                | None => go r
                end
    end.

(** [const v = d[key]; ... f(v) ...], with [absent] when the key is
    undefined.  It is [get] fused with its continuation, so that the
    recursive calls of [extractTagId] stay structural. *)
Definition on_field {A} (key : jsstring) (f : json → A) (absent : A)
  : list (jsstring * json) → A :=
  fix go (d : list (jsstring * json)) : A :=
    match d with
    | [] => absent
    | (k, v) :: r => if decide (k = key) then f v else go r
    end.

Definition preferidos : list jsstring :=
  [lit "epc"; lit "tagId"; lit "tag_id"; lit "id"; lit "tagEPC"; lit "EPC"].

(** The loop over [preferidos]. *)
Fixpoint scan_preferidos (d : list (jsstring * json)) (keys : list jsstring)
  : option jsstring :=
  match keys with
  | [] => None
  | key :: rest =>
      match get d key with
      | Some (JStr v) =>
          if truthy_str (trim v) then Some (trim v) else scan_preferidos d rest
      | _ => scan_preferidos d rest
      end
  end.

(** [a ?: b] on extraction results: the first that returned. *)
Definition or_else (a b : option jsstring) : option jsstring :=
  match a with Some id => Some id | None => b end.

Fixpoint extractTagId (data : json) : option jsstring :=
  match data with
  | JNull => None
  | JStr data =>
      let s := trim data in
      if (6 <=? length s) && test_hex s then Some s
      else if 0 <? length s then Some s
      else None
  | JArr items => for_first extractTagId items
  | JObj d =>
      or_else (scan_preferidos d preferidos)
     (or_else (on_field (lit "tag")
                 (λ tag, if truthy tag then keep (extractTagId tag) else None)
                 None d)
     (or_else (on_field (lit "tags")
                 (λ tags, match tags with
                          | JArr ts => for_first extractTagId ts
                          | _ => None
                          end)
                 None d)
     (or_else (on_field (lit "data")
                 (λ v, if truthy v then keep (extractTagId v) else None)
                 None d)
              (for_first (λ '(_, v), extractTagId v) d))))
  | JBool _ | JNum _ => None
  end.

(** The closure [add] of [extractAllTagIds], with the set [seen] threaded. *)
Definition add (seen : gset jsstring) (id : option jsstring)
  : gset jsstring * option jsstring :=
  match id with
  | Some id =>
      if truthy_str id && (4 <=? length id) && negb (bool_decide (id ∈ seen))
      then ({[id]} ∪ seen, Some id)
      else (seen, None)
  | None => (seen, None)
  end.

(** [ids.push(id)] guarded by [if (id)]. *)
Definition push_if (ids : list jsstring) (id : option jsstring) : list jsstring :=
  match keep id with
  | Some id => ids ++ [id]
  | None => ids
  end.

(** The loop [for (const t of d['tags'])] of [extractAllTagIds]. *)
Fixpoint add_tags (seen : gset jsstring) (ids : list jsstring) (ts : list json)
  : list jsstring :=
  match ts with
  | [] => ids
  | t :: rest =>
      let '(seen', id) := add seen (extractTagId t) in
      add_tags seen' (push_if ids id) rest
  end.

Definition extractAllTagIds (data : json) : list jsstring :=
  let '(seen, main) := add ∅ (extractTagId data) in
  let ids := push_if [] main in
  match data with
  | JObj d =>
      match get d (lit "tags") with
      | Some (JArr ts) => add_tags seen ids ts
      | _ => ids
      end
  | _ => ids
  end.

End Extractor.

(** *** The extractor in the words of the specification *)

Module ExtractorSpec.
Import Extractor.

(** The ids accepted so far, as the source's [seen] set holds them. *)
Definition agree (seen : gset jsstring) (ids : list jsstring) : Prop :=
  ∀ x, x ∈ seen ↔ x ∈ ids.

(** The description of [extractAllTagIds] in the words of the
    specification: the candidates in discovery order ... *)
Definition tags_array (data : json) : list json :=
  match data with
  | JObj d => match get d (lit "tags") with
              | Some (JArr ts) => ts
              | _ => []
              end
  | _ => []
  end.

Definition candidates (data : json) : list (option jsstring) :=
  extractTagId data :: map extractTagId (tags_array data).

(** ... each appended when it has length at least 4 and was not returned
    before. *)
Definition accept (returned : list jsstring) (c : option jsstring)
  : list jsstring :=
  match c with
  | Some id =>
      if (4 <=? length id) && negb (bool_decide (id ∈ returned))
      then returned ++ [id]
      else returned
  | None => returned
  end.

Definition all_ids_spec (data : json) : list jsstring :=
  foldl accept [] (candidates data).

(** The payload of the specification's example,
    [{epc: "AAAA1111", tags: [{id: "AAAA1111"}, {id: "BBBB2222"}]}]. *)
Definition example_payload : json :=
  JObj [ (lit "epc", JStr (lit "AAAA1111"));
         (lit "tags", JArr [ JObj [(lit "id", JStr (lit "AAAA1111"))];
                             JObj [(lit "id", JStr (lit "BBBB2222"))] ]) ].

End ExtractorSpec.

(* ===================================================================== *)
(** ** Read aggregator (lectura.ts, [processEvent], [clearEvents],
       [clearTags]) *)
(* ===================================================================== *)

Module Aggregator.
Import Extractor.

Record TagCount := mkTagCount {
  tc_id : jsstring;
  count : nat;
  lastSeen : jsstring;
}.

Record EventLogEntry := mkEntry {
  time : jsstring;
  data : json;
}.

(** The fields of the component that [processEvent] reads and writes. *)
Record Lectura := mkLectura {
  events : list EventLogEntry;
  eventsReceived : nat;
  tagCounts : gmap jsstring TagCount;
  totalReads : nat;
}.

Definition maxEvents : nat := 200.

(** The field initialisers of the class. *)
Definition initial : Lectura :=
  {| events := []; eventsReceived := 0; tagCounts := ∅; totalReads := 0 |}.

Section WithDecoder.

(** [JSON.parse]: [None] when it throws. *)
Variable JSON_parse : jsstring → option json.

(** [try { data = JSON.parse(raw) } catch { data = { raw } }] *)
Definition decode (raw : jsstring) : json :=
  match JSON_parse raw with
  | Some v => v
  | None => JObj [(lit "raw", JStr raw)]
  end.

(** One iteration of [for (const tagId of tagIds)]. *)
Definition record_read (now : jsstring) (st : Lectura) (tagId : jsstring)
  : Lectura :=
  let total := S (totalReads st) in
  match tagCounts st !! tagId with
  | Some existing =>
      {| events := events st; eventsReceived := eventsReceived st;
         tagCounts :=
           <[tagId := {| tc_id := tc_id existing;
                         count := S (count existing);
                         lastSeen := now |}]> (tagCounts st);
         totalReads := total |}
  | None =>
      {| events := events st; eventsReceived := eventsReceived st;
         tagCounts :=
           <[tagId := {| tc_id := tagId; count := 1; lastSeen := now |}]>
             (tagCounts st);
         totalReads := total |}
  end.

(** [this.events.unshift(e); if (this.events.length > this.maxEvents)
    this.events.pop();] *)
Definition log_event (e : EventLogEntry) (log : list EventLogEntry)
  : list EventLogEntry :=
  let log := e :: log in
  if maxEvents <? length log then removelast log else log.

(** [now] is the value of [new Date().toLocaleTimeString('es-MX')] at the
    call. *)
Definition processEvent (now raw : jsstring) (st : Lectura) : Lectura :=
  let data := decode raw in
  let st :=
    {| events := log_event {| time := now; data := data |} (events st);
       eventsReceived := S (eventsReceived st);
       tagCounts := tagCounts st;
       totalReads := totalReads st |} in
  foldl (record_read now) st (extractAllTagIds data).

Definition clearEvents (st : Lectura) : Lectura :=
  {| events := []; eventsReceived := eventsReceived st;
     tagCounts := tagCounts st; totalReads := totalReads st |}.

Definition clearTags (st : Lectura) : Lectura :=
  {| events := events st; eventsReceived := eventsReceived st;
     tagCounts := ∅; totalReads := 0 |}.

(** The calls that reach the aggregator. *)
Inductive call :=
| ProcessEvent (now raw : jsstring)
| ClearEvents
| ClearTags.

Definition step (st : Lectura) (c : call) : Lectura :=
  match c with
  | ProcessEvent now raw => processEvent now raw st
  | ClearEvents => clearEvents st
  | ClearTags => clearTags st
  end.

Definition run (calls : list call) (st : Lectura) : Lectura :=
  foldl step st calls.

(** Feeding messages, each with the clock reading of its arrival. *)
Definition feed (msgs : list (jsstring * jsstring)) (st : Lectura) : Lectura :=
  foldl (λ st m, processEvent m.1 m.2 st) st msgs.

Definition entry (m : jsstring * jsstring) : EventLogEntry :=
  {| time := m.1; data := decode m.2 |}.

(** Sum of the [count] fields of the tag table. *)
Definition sum_counts (m : gmap jsstring TagCount) : nat :=
  map_fold (λ _ r acc, count r + acc) 0 m.

End WithDecoder.

(** A decoder for texts that are not JSON: [JSON.parse] throws on every
    text fed in the examples of this development (bare words such as
    [AAAA1111]). *)
Definition parse_throws : jsstring → option json := λ _, None.

(** The messages [E0], [E1], ..., each stamped with its own clock reading. *)
Definition numbered (n : nat) : list (jsstring * jsstring) :=
  map (λ i, (lit "t" ++ decimal i, lit "E" ++ decimal i)) (seq 0 n).

End Aggregator.

(* ===================================================================== *)
(** ** Event ingestion channel (lectura.ts, [connectRealtime]) *)
(* ===================================================================== *)

Module Channel.

(** [EventSource.readyState] and [WebSocket.readyState]. *)
Inductive EventSourceState := ES_CONNECTING | ES_OPEN | ES_CLOSED.
Inductive WebSocketState := WS_CONNECTING | WS_OPEN | WS_CLOSING | WS_CLOSED.

(** The fields of the component that the transport callbacks read and write;
    [None] is [null]. *)
Record Conn := mkConn {
  eventSource : option EventSourceState;
  ws : option WebSocketState;
  sseConnected : bool;
}.

(** The state [connectRealtime] leaves when both constructors succeeded:
    [disconnectRealtime] has reset the signal and both transports are
    connecting. *)
Definition opened : Conn :=
  {| eventSource := Some ES_CONNECTING; ws := Some WS_CONNECTING;
     sseConnected := false |}.

(** The handlers installed by [connectRealtime]. *)
Definition es_onopen (st : Conn) : Conn :=
  {| eventSource := eventSource st; ws := ws st; sseConnected := true |}.

Definition es_onerror (st : Conn) : Conn :=
  {| eventSource := eventSource st; ws := ws st; sseConnected := false |}.

Definition ws_onopen (st : Conn) : Conn :=
  {| eventSource := eventSource st; ws := ws st; sseConnected := true |}.

(** [!this.eventSource || this.eventSource.readyState !== EventSource.OPEN] *)
Definition es_not_open (st : Conn) : bool :=
  match eventSource st with
  | None => true
  | Some ES_OPEN => false
  | Some _ => true
  end.

Definition ws_onclose (st : Conn) : Conn :=
  if es_not_open st
  then {| eventSource := eventSource st; ws := ws st; sseConnected := false |}
  else st.

Definition ws_onerror (st : Conn) : Conn :=
  if es_not_open st
  then {| eventSource := eventSource st; ws := ws st; sseConnected := false |}
  else st.

(** The transport callbacks.  The browser sets [readyState] before it fires
    the event: an [EventSource] error leaves the source reconnecting
    ([retry = true], CONNECTING) or failed (CLOSED); a [WebSocket] error or
    close leaves the socket CLOSED. *)
Inductive callback :=
| SseOpen
| SseError (retry : bool)
| WsOpen
| WsClose
| WsError.

Definition set_es (s : EventSourceState) (st : Conn) : Conn :=
  {| eventSource := Some s; ws := ws st; sseConnected := sseConnected st |}.

Definition set_ws (s : WebSocketState) (st : Conn) : Conn :=
  {| eventSource := eventSource st; ws := Some s;
     sseConnected := sseConnected st |}.

Definition fire (st : Conn) (cb : callback) : Conn :=
  match cb with
  | SseOpen => es_onopen (set_es ES_OPEN st)
  | SseError retry =>
      es_onerror (set_es (if retry then ES_CONNECTING else ES_CLOSED) st)
  | WsOpen => ws_onopen (set_ws WS_OPEN st)
  | WsClose => ws_onclose (set_ws WS_CLOSED st)
  | WsError => ws_onerror (set_ws WS_CLOSED st)
  end.

Definition run (cbs : list callback) : Conn := foldl fire opened cbs.

Definition es_open (st : Conn) : bool :=
  match eventSource st with Some ES_OPEN => true | _ => false end.

Definition ws_open (st : Conn) : bool :=
  match ws st with Some WS_OPEN => true | _ => false end.

End Channel.

(* ===================================================================== *)
(** ** Case reconciliation and the case text format (the [Maleta]
       component) *)
(* ===================================================================== *)

Module Maleta.

Record MaletaItem := mkMaleta {
  item_id : jsstring;
  masterRfid : jsstring;
  productRfids : list jsstring;
  createdAt : jsstring;
  (** optional field: [None] is [undefined] *)
  expiredProductRfids : option (list jsstring);
}.

Inductive SemaphoreStatus := red | blue | yellow | green.

#[global] Instance SemaphoreStatus_eq_dec : EqDecision SemaphoreStatus.
Proof. solve_decision. Defined.

(** *** Reconciliation.  [read] is the value of the getter
    [effectiveReadTags]; [maletas] is the field [this.maletas]. *)

(** [set.add(trim master); for r of products: set.add(trim r)] for one case *)
Definition add_expected (set : gset jsstring) (m : MaletaItem) : gset jsstring :=
  foldl (λ set r, {[trim r]} ∪ set) ({[trim (masterRfid m)]} ∪ set)
        (productRfids m).

Definition getExpectedTagUnion (maletas : list MaletaItem) : gset jsstring :=
  foldl add_expected ∅ maletas ∖ {[ [] ]}.

Definition hasUnknownTagRead (maletas : list MaletaItem) (read : list jsstring)
  : bool :=
  if length maletas =? 0 then false
  else
    let expected := getExpectedTagUnion maletas in
    existsb (λ r, (0 <? length r) && negb (bool_decide (r ∈ expected))) read.

Definition getMaletaStatus (m : MaletaItem) (read : list jsstring)
  : SemaphoreStatus :=
  let expired := default [] (expiredProductRfids m) in
  if 0 <? length expired then red
  else
    let expected :=
      List.filter (λ s, 0 <? length s)
                  (map trim (masterRfid m :: productRfids m)) in
    let missing := List.filter (λ e, negb (includes read e)) expected in
    if 0 <? length missing then blue else green.

Definition generalSemaphoreStatus (maletas : list MaletaItem)
    (read : list jsstring) : SemaphoreStatus :=
  if length maletas =? 0 then green
  else
    let statuses := map (λ m, getMaletaStatus m read) maletas in
    if existsb (λ s, bool_decide (s = red)) statuses then red
    else if hasUnknownTagRead maletas read then yellow
    else if existsb (λ s, bool_decide (s = yellow)) statuses then yellow
    else if existsb (λ s, bool_decide (s = blue)) statuses then blue
    else green.

(** *** The reconciliation rules in the words of the specification *)

(** the case's expired set is non-empty *)
Definition has_expired (m : MaletaItem) : Prop :=
  default [] (expiredProductRfids m) ≠ [].

(** [t] is an expected tag of the case: the trim, when not empty, of its
    master or of one of its product tags *)
Definition expects (m : MaletaItem) (t : jsstring) : Prop :=
  t ≠ [] ∧ Exists (λ x, t = trim x) (masterRfid m :: productRfids m).

(** some expected tag of the case is absent from the read set *)
Definition has_missing (read : list jsstring) (m : MaletaItem) : Prop :=
  Exists (λ x, trim x ≠ [] ∧ trim x ∉ read) (masterRfid m :: productRfids m).

(** a read that no case expects *)
Definition unlisted (maletas : list MaletaItem) (r : jsstring) : Prop :=
  r ≠ [] ∧ ¬ Exists (λ m, expects m r) maletas.

#[global] Instance has_expired_dec m : Decision (has_expired m).
Proof. unfold has_expired. apply _. Defined.

#[global] Instance expects_dec m t : Decision (expects m t).
Proof. unfold expects. apply _. Defined.

#[global] Instance has_missing_dec read m : Decision (has_missing read m).
Proof. unfold has_missing. apply _. Defined.

#[global] Instance unlisted_dec maletas r : Decision (unlisted maletas r).
Proof. unfold unlisted. apply _. Defined.

Definition case_status_spec (m : MaletaItem) (read : list jsstring)
  : SemaphoreStatus :=
  if decide (has_expired m) then red
  else if decide (has_missing read m) then blue
  else green.

(** The aggregate rule over the statuses of the cases, an intermediate
    form between the code and the rule on the inputs. *)
Definition general_status_spec (maletas : list MaletaItem)
    (read : list jsstring) : SemaphoreStatus :=
  if decide (maletas = []) then green
  else if decide (Exists has_expired maletas) then red
  else if decide (Exists (unlisted maletas) read) then yellow
  else if decide (Exists (λ m, getMaletaStatus m read = blue) maletas) then blue
  else green.

(** *** The text format *)

Definition TXT_MAESTRO_PREFIX : jsstring := lit "MAESTRO ".

(** [lines.join('\n')] *)
Fixpoint join_lines (lines : list jsstring) : jsstring :=
  match lines with
  | [] => []
  | [l] => l
  | l :: rest => l ++ LF :: join_lines rest
  end.

Definition cons_head (c : N) (pieces : list jsstring) : list jsstring :=
  match pieces with
  | l :: rest => (c :: l) :: rest
  | [] => [[c]]
  end.

(** [text.split(/\r?\n/)]: a separator is a line feed, together with the
    carriage return just before it when there is one. *)
Fixpoint split_lines (text : jsstring) : list jsstring :=
  match text with
  | [] => [[]]
  | c :: rest =>
      if decide (c = LF) then [] :: split_lines rest
      else
        match rest with
        | c2 :: rest' =>
            if decide (c = CR ∧ c2 = LF) then [] :: split_lines rest'
            else cons_head c (split_lines rest)
        | [] => cons_head c (split_lines rest)
        end
  end.

(** The two comment lines that head an exported file; the accented letters
    are given by their code units. *)
Definition header1 : jsstring :=
  lit "# Maletas - qu" ++ [233%N] ++ lit " hay que leer".

Definition header2 : jsstring :=
  lit "# MAESTRO = RFID de la maleta. L" ++ [237%N]
  ++ lit "neas debajo = productos hasta el pr" ++ [243%N]
  ++ lit "ximo MAESTRO.".

(** The lines that the loop of [exportMaletasToTxt] pushes for one case. *)
Definition case_lines (m : MaletaItem) : list jsstring :=
  (TXT_MAESTRO_PREFIX ++ masterRfid m) :: map trim (productRfids m) ++ [[]].

(** [exportMaletasToTxt], as the text it puts in the downloaded blob. *)
Definition exportMaletasToTxt (maletas : list MaletaItem) : jsstring :=
  join_lines ([header1; header2; []] ++ concat (map case_lines maletas)).

(** [current.productRfids.push(line)]: [current] aliases the item pushed
    last on [result], and is [null] exactly while [result] is empty. *)
Fixpoint push_to_current (line : jsstring) (result : list MaletaItem)
  : list MaletaItem :=
  match result with
  | [] => []
  | [current] =>
      [ {| item_id := item_id current; masterRfid := masterRfid current;
           productRfids := productRfids current ++ [line];
           createdAt := createdAt current;
           expiredProductRfids := expiredProductRfids current |} ]
  | m :: rest => m :: push_to_current line rest
  end.

Section WithClock.

(** [clock k] holds the renderings of [Date.now()] and of
    [new Date().toISOString()] read when [result] holds [k] items. *)
Variable clock : nat → jsstring * jsstring.

(** The body of the loop of [parseMaletasTxt]. *)
Definition parse_line (result : list MaletaItem) (line : jsstring)
  : list MaletaItem :=
  if negb (truthy_str line) || startsWith (lit "#") line then result
  else if startsWith TXT_MAESTRO_PREFIX line then
    let masterRfid := trim (slice (length TXT_MAESTRO_PREFIX) line) in
    if truthy_str masterRfid then
      result ++
        [ {| item_id := lit "maleta_" ++ (clock (length result)).1
                        ++ lit "_" ++ decimal (length result);
             masterRfid := masterRfid;
             productRfids := [];
             createdAt := (clock (length result)).2;
             expiredProductRfids := None |} ]
    else result
  else if truthy_str line then push_to_current line result
  else result.

Definition parseMaletasTxt (text : jsstring) : list MaletaItem :=
  let lines := map trim (split_lines text) in
  foldl parse_line [] lines.

(** The component state touched by an import: the field [maletas] and the
    list saved in local storage under [maleta_list]. *)
Record Store := mkStore {
  maletas : list MaletaItem;
  saved : list MaletaItem;
}.

(** The [onload] handler of [importMaletasFromFile]; [setItem_ok] tells
    whether [localStorage.setItem] succeeded (its failure is caught). *)
Definition importMaletas_onload (setItem_ok : bool) (text : jsstring)
    (st : Store) : Store :=
  let loaded := parseMaletasTxt text in
  if 0 <? length loaded then
    {| maletas := loaded;
       saved := if setItem_ok then loaded else saved st |}
  else st.

End WithClock.

(** What a round trip through the text format keeps of a case. *)
Definition tags_of (m : MaletaItem) : jsstring * list jsstring :=
  (masterRfid m, productRfids m).

(** A product tag that the format can carry: it is not empty, holds no line
    feed, and is neither a comment nor a master line. *)
Definition portable_product (p : jsstring) : bool :=
  truthy_str p && negb (bool_decide (LF ∈ p))
  && negb (startsWith (lit "#") p)
  && negb (startsWith TXT_MAESTRO_PREFIX p).

(** A case that the format can carry. *)
Definition portable (m : MaletaItem) : bool :=
  truthy_str (trim (masterRfid m))
  && negb (bool_decide (LF ∈ masterRfid m))
  && forallb (λ p, portable_product (trim p)) (productRfids m).

(** A clock for the examples. *)
Definition fixed_clock : nat → jsstring * jsstring :=
  λ _, (lit "1760000000000", lit "2025-10-09T08:53:20.000Z").

End Maleta.

(* ===================================================================== *)
(** ** Auxiliary notions for the further properties *)
(* ===================================================================== *)

Module Payload.

(** The strings that occur in a decoded payload, keys excluded. *)
Fixpoint strings_in (v : json) : list jsstring :=
  match v with
  | JStr s => [s]
  | JArr items => concat (map strings_in items)
  | JObj d => concat (map (λ '(_, v), strings_in v) d)
  | JNull | JBool _ | JNum _ => []
  end.

End Payload.

Module LecturaViews.
Import Aggregator.

(** The getter [uniqueCount]: [this.tagCounts.size]. *)
Definition uniqueCount (st : Lectura) : nat := size (tagCounts st).

Definition is_message (c : call) : bool :=
  match c with ProcessEvent _ _ => true | _ => false end.

(** The record of a key after one more observation at [now]. *)
Definition observed (now key : jsstring) (old : option TagCount) : TagCount :=
  match old with
  | Some existing => {| tc_id := tc_id existing;
                        count := S (count existing);
                        lastSeen := now |}
  | None => {| tc_id := key; count := 1; lastSeen := now |}
  end.

(** A well-formed tag table. *)
Definition wf_table (m : gmap jsstring TagCount) : Prop :=
  ∀ k r, m !! k = Some r →
         tc_id r = k ∧ 1 ≤ count r ∧ 4 ≤ length k ∧ trimmed k.

End LecturaViews.

(* ===================================================================== *)
(** ** Opening and closing the channel (lectura.ts, [connectRealtime],
       [disconnectRealtime]) *)
(* ===================================================================== *)

Module ChannelLifecycle.
Import Channel.

(** The channel together with the sockets of earlier connections.
    [disconnectRealtime] only asks the current [WebSocket] to close and
    forgets it: that socket keeps the [onclose] and [onerror] closures it
    was given, and they still run, on the fields of the component, when
    its close completes.  [closing] counts the sockets whose close event is
    still to come.  A closed [EventSource] fires nothing more. *)
Record Page := mkPage {
  conn : Conn;
  closing : nat;
}.

(** The component as constructed: no transport, signal false. *)
Definition fresh : Page :=
  {| conn := {| eventSource := None; ws := None; sseConnected := false |};
     closing := 0 |}.

(** [this.ws.close()] leaves a close event to come unless the socket is
    already closed. *)
Definition close_pending (st : Conn) : nat :=
  match ws st with
  | None | Some WS_CLOSED => 0
  | Some _ => 1
  end.

(** [disconnectRealtime] *)
Definition disconnectRealtime (p : Page) : Page :=
  {| conn := {| eventSource := None; ws := None; sseConnected := false |};
     closing := closing p + close_pending (conn p) |}.

(** [connectRealtime]: [base] is [this.api.getBaseUrl()]; [es_ok] and
    [ws_ok] tell whether the constructors [new EventSource] and
    [new WebSocket] returned (they may throw, which is caught). *)
Definition connectRealtime (base : jsstring) (es_ok ws_ok : bool)
    (p : Page) : Page :=
  let p := disconnectRealtime p in
  if negb (truthy_str base) then p
  else
    let st := conn p in
    let st :=
      if es_ok then set_es ES_CONNECTING st
      else {| eventSource := eventSource st; ws := ws st;
              sseConnected := false |} in
    let st := if ws_ok then set_ws WS_CONNECTING st else st in
    {| conn := st; closing := closing p |}.

(** What happens to the page: a callback of a current transport, the error
    or the close event of a socket of an earlier connection (its handler
    runs on the current fields; the close event is its last), and the two
    calls. *)
Inductive event :=
| Current (cb : callback)
| LateError
| LateClose
| Disconnect
| Connect (base : jsstring) (es_ok ws_ok : bool).

Definition step (p : Page) (e : event) : Page :=
  match e with
  | Current cb => {| conn := fire (conn p) cb; closing := closing p |}
  | LateError =>
      if closing p =? 0 then p
      else {| conn := ws_onerror (conn p); closing := closing p |}
  | LateClose =>
      if closing p =? 0 then p
      else {| conn := ws_onclose (conn p); closing := pred (closing p) |}
  | Disconnect => disconnectRealtime p
  | Connect base es_ok ws_ok => connectRealtime base es_ok ws_ok p
  end.

Definition play (events : list event) : Page := foldl step fresh events.

Definition is_ws_callback (cb : callback) : bool :=
  match cb with WsOpen | WsClose | WsError => true | _ => false end.

Definition is_ws_open_callback (cb : callback) : bool :=
  match cb with WsOpen => true | _ => false end.

(** An event of a socket, current or earlier. *)
Definition is_socket_event (e : event) : bool :=
  match e with
  | Current cb => is_ws_callback cb
  | LateError | LateClose => true
  | Disconnect | Connect _ _ _ => false
  end.

End ChannelLifecycle.

(* ===================================================================== *)
(** ** The read set and the supporting queries of the [Maleta] component *)
(* ===================================================================== *)

Module MaletaReads.
Import Maleta.

(** The character class of [/[\r\n,;]+/]. *)
Definition is_sep (c : N) : bool :=
  ((c =? 13) || (c =? 10) || (c =? 44) || (c =? 59))%N.

(** [s.split(/[\r\n,;]+/)]: a separator is a maximal run of separator
    characters; [in_sep] tells that the previous character belonged to the
    run being skipped. *)
Fixpoint split_seps_from (in_sep : bool) (s : jsstring) : list jsstring :=
  match s with
  | [] => [[]]
  | c :: rest =>
      if is_sep c then
        if in_sep then split_seps_from true rest
        else [] :: split_seps_from true rest
      else cons_head c (split_seps_from false rest)
  end.

Definition split_seps (s : jsstring) : list jsstring :=
  split_seps_from false s.

(** The getter [simulatedReadTags] on [this.simulatedReadInput]. *)
Definition simulatedReadTags (simulatedReadInput : jsstring)
  : list jsstring :=
  let raw := trim simulatedReadInput in
  if negb (truthy_str raw) then []
  else List.filter (λ s, 0 <? length s) (map trim (split_seps raw)).

(** [unlisted.add(r)] on a set kept in insertion order. *)
Definition set_add (acc : list jsstring) (r : jsstring) : list jsstring :=
  if bool_decide (r ∈ acc) then acc else acc ++ [r].

(** The getter [extraUnlistedTags]. *)
Definition extraUnlistedTags (maletas : list MaletaItem)
    (read : list jsstring) : list jsstring :=
  if length maletas =? 0 then []
  else
    let expected := getExpectedTagUnion maletas in
    foldl (λ unlisted r,
             if (0 <? length r) && negb (bool_decide (r ∈ expected))
             then set_add unlisted r else unlisted)
          [] read.

(** [getMaletaProgress]: the pair [(read, total)]. *)
Definition getMaletaProgress (m : MaletaItem) (read : list jsstring)
  : nat * nat :=
  let expected := map trim (masterRfid m :: productRfids m) in
  let readCount := length (List.filter (λ e, includes read e) expected) in
  (readCount, length expected).

(** [getMaletaMissing] *)
Definition getMaletaMissing (m : MaletaItem) (read : list jsstring)
  : list jsstring :=
  let expected := map trim (masterRfid m :: productRfids m) in
  List.filter (λ e, negb (includes read e)) expected.

(** [isTagRead] *)
Definition isTagRead (read : list jsstring) (rfid : jsstring) : bool :=
  let id := trim rfid in
  (0 <? length id) && includes read id.

(** The getter [completedMaletasCount]. *)
Definition completedMaletasCount (maletas : list MaletaItem)
    (read : list jsstring) : nat :=
  length (List.filter
            (λ m, bool_decide (getMaletaStatus m read = green)) maletas).

End MaletaReads.
(* ===================================================================== *)
(** ** Properties of the extractor *)
(* ===================================================================== *)

Module ExtractorFacts.
Import Extractor ExtractorSpec.

(** [on_field] is the lookup [d[key]] followed by its continuation. *)
Lemma on_field_get {A} key (f : json → A) absent d :
  on_field key f absent d =
  match get d key with Some v => f v | None => absent end.
Proof.
  induction d as [|[k v] r IH]; simpl; [done|].
  by destruct (decide (k = key)).
Qed.

(** The object branch of [extractTagId], written with plain lookups, in the
    order of the source. *)
Lemma extractTagId_object d :
  extractTagId (JObj d) =
  or_else (scan_preferidos d preferidos)
 (or_else (match get d (lit "tag") with
           | Some tag => if truthy tag then keep (extractTagId tag) else None
           | None => None
           end)
 (or_else (match get d (lit "tags") with
           | Some (JArr ts) => for_first extractTagId ts
           | _ => None
           end)
 (or_else (match get d (lit "data") with
           | Some v => if truthy v then keep (extractTagId v) else None
           | None => None
           end)
          (for_first (λ kv, extractTagId kv.2) d)))).
Proof.
  cbn [extractTagId]. rewrite !on_field_get.
  do 4 f_equal.
  induction d as [|[k v] r IH]; simpl; [done|]. by rewrite IH.
Qed.

Lemma keep_truthy r id : keep r = Some id → r = Some id ∧ id ≠ [].
Proof.
  destruct r as [[|c s]|]; simpl; intros H; inversion H; subst; done.
Qed.

Lemma for_first_nonempty {A} (f : A → option jsstring) l id :
  for_first f l = Some id → id ≠ [].
Proof.
  induction l as [|x r IH]; simpl; [done|].
  destruct (keep (f x)) as [id'|] eqn:E; [|done].
  intros [= <-]. by apply keep_truthy in E as [_ ?].
Qed.

Lemma add_push seen ids c :
  agree seen ids →
  let '(seen', id) := add seen c in
  push_if ids id = accept ids c ∧ agree seen' (accept ids c).
Proof.
  intros Hag. destruct c as [id|]; [|done]. unfold add, accept.
  assert (bool_decide (id ∈ seen) = bool_decide (id ∈ ids)) as ->
    by (apply bool_decide_ext, Hag).
  destruct id as [|c s]; [done|]. cbn [truthy_str andb].
  destruct ((4 <=? length (c :: s)) && negb (bool_decide ((c :: s) ∈ ids)));
    [|done].
  split; [done|]. intros x. rewrite elem_of_union, elem_of_singleton,
    elem_of_app, list_elem_of_singleton, (Hag x). tauto.
Qed.

Lemma add_tags_spec ts : ∀ seen ids,
  agree seen ids →
  add_tags seen ids ts = foldl accept ids (map extractTagId ts).
Proof.
  induction ts as [|t rest IH]; intros seen ids Hag; simpl; [done|].
  pose proof (add_push seen ids (extractTagId t) Hag) as H.
  destruct (add seen (extractTagId t)) as [seen' id].
  destruct H as [-> Hag']. by apply IH.
Qed.

Lemma accept_NoDup ids c : NoDup ids → NoDup (accept ids c).
Proof.
  intros Hnd. destruct c as [id|]; [|done]. unfold accept.
  destruct (4 <=? length id); [|done].
  case_bool_decide; [done|]. cbn [andb negb].
  apply NoDup_app. split_and!; [done| |apply NoDup_singleton].
  intros x Hx Hx'. apply list_elem_of_singleton in Hx'. by subst.
Qed.

Lemma foldl_accept_NoDup cs : ∀ ids, NoDup ids → NoDup (foldl accept ids cs).
Proof.
  induction cs as [|c cs IH]; intros ids Hnd; simpl; [done|].
  by apply IH, accept_NoDup.
Qed.

Lemma accept_length ids c : length (accept ids c) ≤ S (length ids).
Proof.
  destruct c as [id|]; [|simpl; lia]. unfold accept.
  destruct (_ && _); [rewrite length_app; simpl|]; lia.
Qed.

Lemma foldl_accept_length cs : ∀ ids,
  length (foldl accept ids cs) ≤ length ids + length cs.
Proof.
  induction cs as [|c cs IH]; intros ids; simpl; [lia|].
  pose proof (IH (accept ids c)). pose proof (accept_length ids c). lia.
Qed.

Lemma extractAllTagIds_spec data : extractAllTagIds data = all_ids_spec data.
Proof.
  unfold extractAllTagIds, all_ids_spec, candidates. simpl.
  assert (agree ∅ []) as H0 by (intros x; set_solver).
  pose proof (add_push ∅ [] (extractTagId data) H0) as H.
  destruct (add ∅ (extractTagId data)) as [seen main].
  destruct H as [-> Hag].
  destruct data as [| | | | |d]; simpl; try done.
  destruct (get d (lit "tags")) as [[| | | |ts|]|]; simpl; try done.
  by apply add_tags_spec.
Qed.

(** C6. [extractAllTagIds] returns, in discovery order and without
    duplicates, the result of [extractTagId] on the whole payload when it
    has length at least 4, followed, only for an object with a [tags] array,
    by the result of [extractTagId] on each element that has length at
    least 4 and was not returned before; it returns at most
    1 + (length of the tags array) ids, and on
    [{epc: "AAAA1111", tags: [{id: "AAAA1111"}, {id: "BBBB2222"}]}] it
    returns ["AAAA1111"; "BBBB2222"]. *)
Theorem extractAllTagIds_discovery_order :
  (∀ data,
     extractAllTagIds data =
       foldl accept [] (extractTagId data :: map extractTagId (tags_array data))
     ∧ NoDup (extractAllTagIds data)
     ∧ length (extractAllTagIds data) ≤ 1 + length (tags_array data))
  ∧ extractAllTagIds example_payload = [lit "AAAA1111"; lit "BBBB2222"].
Proof.
  split; [|by vm_compute].
  intros data. rewrite extractAllTagIds_spec. unfold all_ids_spec, candidates.
  split_and!; [done|by apply foldl_accept_NoDup, NoDup_nil|].
  etrans; [apply foldl_accept_length|]. simpl. by rewrite length_map.
Qed.

(** C7. An object whose key [epc] holds a string with a non-empty trim
    yields that string trimmed, whatever else the object holds. *)
Theorem extractTagId_epc_first (d : list (jsstring * json)) (v : jsstring) :
  get d (lit "epc") = Some (JStr v) →
  trim v ≠ [] →
  extractTagId (JObj d) = Some (trim v).
Proof.
  intros Hget Hne. rewrite extractTagId_object.
  unfold preferidos. cbn [scan_preferidos]. rewrite Hget.
  destruct (trim v) as [|c s]; [done|]. reflexivity.
Qed.

Lemma extractTagId_epc_first_witness :
  extractTagId
    (JObj [ (lit "tags", JArr [JStr (lit "CCCC3333")]);
            (lit "id", JStr (lit "DDDD4444"));
            (lit "epc", JStr (lit "  AAAA1111 ")) ])
  = Some (lit "AAAA1111").
Proof.
  apply (extractTagId_epc_first _ (lit "  AAAA1111 ")); by vm_compute.
Defined.

End ExtractorFacts.


(* ===================================================================== *)
(** ** Properties of the read aggregator *)
(* ===================================================================== *)

Module AggregatorFacts.
Import Extractor Aggregator.

Lemma take_app_take {A} (a b : list A) n :
  take n (a ++ take n b) = take n (a ++ b).
Proof.
  rewrite !take_app, take_take. do 2 f_equal. lia.
Qed.

Lemma sum_counts_insert_fresh m k r :
  m !! k = None → sum_counts (<[k:=r]> m) = count r + sum_counts m.
Proof.
  intros Hk. unfold sum_counts.
  rewrite map_fold_insert_L; [done| |done]. intros; lia.
Qed.

Lemma sum_counts_insert_over m k r old :
  m !! k = Some old →
  sum_counts (<[k:=r]> m) + count old = count r + sum_counts m.
Proof.
  intros Hk.
  rewrite <-(insert_delete_eq m k r).
  rewrite <-(insert_delete_id m k old Hk) at 2.
  rewrite !sum_counts_insert_fresh by apply lookup_delete_eq. lia.
Qed.

Section WithDecoder.
Variable JSON_parse : jsstring → option json.

Local Abbreviation decode := (decode JSON_parse).
Local Abbreviation processEvent := (processEvent JSON_parse).
Local Abbreviation run := (run JSON_parse).
Local Abbreviation feed := (feed JSON_parse).
Local Abbreviation entry := (entry JSON_parse).

(** *** The event log *)

Lemma record_read_events now st t : events (record_read now st t) = events st.
Proof. unfold record_read. by destruct (tagCounts st !! t). Qed.

Lemma foldl_record_read_events now ids : ∀ st,
  events (foldl (record_read now) st ids) = events st.
Proof.
  induction ids as [|t ids IH]; intros st; simpl; [done|].
  by rewrite IH, record_read_events.
Qed.

Lemma processEvent_events now raw st :
  events (processEvent now raw st) = log_event (entry (now, raw)) (events st).
Proof. unfold Aggregator.processEvent. by rewrite foldl_record_read_events. Qed.

Lemma log_event_take e log :
  length log ≤ maxEvents → log_event e log = take maxEvents (e :: log).
Proof.
  intros Hlen. unfold log_event.
  destruct (Nat.ltb_spec maxEvents (length (e :: log))) as [Hgt|Hle].
  - rewrite removelast_firstn_len. f_equal. simpl in *. lia.
  - by rewrite take_ge.
Qed.

Lemma log_event_length e log :
  length log ≤ maxEvents → length (log_event e log) ≤ maxEvents.
Proof.
  intros Hlen. rewrite log_event_take by done. rewrite length_take. lia.
Qed.

Lemma step_log_bound st c :
  length (events st) ≤ maxEvents →
  length (events (step JSON_parse st c)) ≤ maxEvents.
Proof.
  intros Hlen. destruct c as [now raw| |]; simpl.
  - rewrite processEvent_events. by apply log_event_length.
  - lia.
  - done.
Qed.

Lemma run_log_bound calls : ∀ st,
  length (events st) ≤ maxEvents →
  length (events (run calls st)) ≤ maxEvents.
Proof.
  induction calls as [|c calls IH]; intros st Hlen; simpl; [done|].
  by apply IH, step_log_bound.
Qed.

Lemma feed_events msgs : ∀ st,
  length (events st) ≤ maxEvents →
  events (feed msgs st) = take maxEvents (rev (map entry msgs) ++ events st).
Proof.
  induction msgs as [|[now raw] msgs IH]; intros st Hlen; simpl.
  - by rewrite take_ge.
  - unfold Aggregator.feed in *. simpl.
    rewrite IH by (rewrite processEvent_events; by apply log_event_length).
    rewrite processEvent_events, log_event_take by done.
    by rewrite take_app_take, <-app_assoc.
Qed.

(** *** The tag table *)

Lemma processEvent_single now raw st t :
  extractAllTagIds (decode raw) = [t] →
  tagCounts (processEvent now raw st) !! t =
    Some match tagCounts st !! t with
         | Some existing => {| tc_id := tc_id existing;
                               count := S (count existing);
                               lastSeen := now |}
         | None => {| tc_id := t; count := 1; lastSeen := now |}
         end
  ∧ totalReads (processEvent now raw st) = S (totalReads st).
Proof.
  intros Hids. unfold Aggregator.processEvent. rewrite Hids. simpl.
  unfold record_read. simpl.
  destruct (tagCounts st !! t); simpl; by rewrite lookup_insert_eq.
Qed.

Lemma feed_existing t msgs : ∀ st r,
  tagCounts st !! t = Some r →
  Forall (λ m, extractAllTagIds (decode m.2) = [t]) msgs →
  tagCounts (feed msgs st) !! t =
    Some {| tc_id := tc_id r;
            count := count r + length msgs;
            lastSeen := default (lastSeen r) (last msgs.*1) |}
  ∧ totalReads (feed msgs st) = totalReads st + length msgs.
Proof.
  induction msgs as [|[now raw] msgs IH]; intros st r Hr Hall; simpl.
  - rewrite Hr, !Nat.add_0_r. by destruct r.
  - apply Forall_cons in Hall as [Hm Hall]. simpl in Hm.
    destruct (processEvent_single now raw st t Hm) as [Hl Ht].
    rewrite Hr in Hl. unfold Aggregator.feed in *. simpl.
    destruct (IH _ _ Hl Hall) as [-> ->]. rewrite Ht. simpl.
    split; [|lia]. do 2 f_equal; [lia|].
    rewrite last_cons. by destruct (last _).
Qed.

(** *** The two counters *)

Lemma record_read_counters now st t :
  totalReads st = sum_counts (tagCounts st) →
  totalReads (record_read now st t) = sum_counts (tagCounts (record_read now st t)).
Proof.
  intros Hinv. unfold record_read.
  destruct (tagCounts st !! t) as [old|] eqn:Hl; simpl.
  - pose proof (sum_counts_insert_over (tagCounts st) t
      {| tc_id := tc_id old; count := S (count old); lastSeen := now |}
      old Hl) as H. simpl in H. lia.
  - rewrite sum_counts_insert_fresh by done. simpl. lia.
Qed.

Lemma foldl_record_read_counters now ids : ∀ st,
  totalReads st = sum_counts (tagCounts st) →
  totalReads (foldl (record_read now) st ids) =
    sum_counts (tagCounts (foldl (record_read now) st ids)).
Proof.
  induction ids as [|t ids IH]; intros st Hinv; simpl; [done|].
  by apply IH, record_read_counters.
Qed.

Lemma step_counters st c :
  totalReads st = sum_counts (tagCounts st) →
  totalReads (step JSON_parse st c) =
    sum_counts (tagCounts (step JSON_parse st c)).
Proof.
  intros Hinv. destruct c as [now raw| |]; simpl.
  - unfold Aggregator.processEvent. by apply foldl_record_read_counters.
  - done.
  - unfold sum_counts. by rewrite map_fold_empty.
Qed.

Lemma run_counters calls : ∀ st,
  totalReads st = sum_counts (tagCounts st) →
  totalReads (run calls st) = sum_counts (tagCounts (run calls st)).
Proof.
  induction calls as [|c calls IH]; intros st Hinv; simpl; [done|].
  by apply IH, step_counters.
Qed.

Lemma foldl_record_read_total now ids : ∀ st,
  totalReads (foldl (record_read now) st ids) = totalReads st + length ids.
Proof.
  induction ids as [|t ids IH]; intros st; simpl; [lia|].
  rewrite IH. unfold record_read. destruct (tagCounts st !! t); simpl; lia.
Qed.

(** C8. From the initial state, every call of [processEvent] prepends one
    entry to the event log and drops the oldest (last) one exactly when the
    log already held 200, so the log never exceeds 200 entries and stays
    newest first; after 201 messages fed to the empty aggregator the log
    holds the entries of the last 200, newest first, and (the entries being
    distinct) no longer the first one. *)
Theorem event_log_cap :
  (∀ calls now raw,
     let st := run calls initial in
     let st' := processEvent now raw st in
     let e := entry (now, raw) in
     events st' = take 200 (e :: events st)
     ∧ (length (events st) < 200 → events st' = e :: events st)
     ∧ (length (events st) = 200 →
        ∃ oldest, e :: events st = events st' ++ [oldest])
     ∧ length (events st') ≤ 200)
  ∧ (∀ calls, length (events (run calls initial)) ≤ 200)
  ∧ (∀ first rest,
       length rest = 200 →
       events (feed (first :: rest) initial) = rev (map entry rest)
       ∧ length (events (feed (first :: rest) initial)) = 200
       ∧ (NoDup (map entry (first :: rest)) →
          entry first ∉ events (feed (first :: rest) initial))).
Proof.
  assert (Hinit : length (events initial) ≤ maxEvents) by (simpl; lia).
  split_and!.
  - intros calls now raw st st' e.
    pose proof (run_log_bound calls initial Hinit) as Hst. fold st in Hst.
    assert (Hev : events st' = take 200 (e :: events st))
      by (subst st'; rewrite processEvent_events; by apply log_event_take).
    unfold maxEvents in *. split_and!; [done| | |].
    + intros Hlt. rewrite Hev. apply take_ge. simpl. lia.
    + intros Heq. exists (default e (last (e :: events st))). rewrite Hev.
      destruct (exists_last (l:=e :: events st)) as (front & x & Hl); [done|].
      rewrite Hl, last_snoc. simpl. f_equal.
      assert (length front = 200).
      { apply (f_equal length) in Hl. rewrite length_app in Hl.
        simpl in Hl. lia. }
      by rewrite take_app_length'.
    + rewrite Hev, length_take. lia.
  - intros calls. by apply run_log_bound.
  - intros first rest Hlen.
    assert (Hev : events (feed (first :: rest) initial) = rev (map entry rest)).
    { rewrite feed_events by done. simpl. rewrite app_nil_r.
      apply take_app_length'. unfold maxEvents.
      by rewrite length_rev, length_map. }
    rewrite Hev. split_and!; [done|by rewrite length_rev, length_map|].
    intros Hnd Hin. apply NoDup_cons in Hnd as [Hnin _].
    apply Hnin. apply list_elem_of_In, in_rev, list_elem_of_In in Hin. done.
Qed.

(** C9. Feeding N >= 1 messages that each extract exactly [[t]], from a
    state without a record for [t], leaves the record of [t] with
    [count = N] and [lastSeen] the clock reading of the last message, and
    adds N to [totalReads]; a single such message creates the record with
    count 1 or increments the existing record and refreshes [lastSeen]; and
    any message adds to [totalReads] the number of ids extracted from it. *)
Theorem tag_count_after_feeds (t : jsstring) (n : nat)
    (msgs : list (jsstring * jsstring)) (m_last : jsstring * jsstring)
    (st : Lectura) :
  1 ≤ n →
  length msgs = n →
  last msgs = Some m_last →
  tagCounts st !! t = None →
  Forall (λ m, extractAllTagIds (decode m.2) = [t]) msgs →
  (tagCounts (feed msgs st) !! t =
     Some {| tc_id := t; count := n; lastSeen := m_last.1 |}
   ∧ totalReads (feed msgs st) = totalReads st + n)
  ∧ (∀ now raw s,
       extractAllTagIds (decode raw) = [t] →
       tagCounts (processEvent now raw s) !! t =
         Some match tagCounts s !! t with
              | Some existing => {| tc_id := tc_id existing;
                                    count := S (count existing);
                                    lastSeen := now |}
              | None => {| tc_id := t; count := 1; lastSeen := now |}
              end)
  ∧ (∀ now raw s,
       totalReads (processEvent now raw s) =
         totalReads s + length (extractAllTagIds (decode raw))).
Proof.
  intros Hn Hlen Hlast Hnone Hall. split; [|split].
  - destruct msgs as [|[now raw] rest]; [simpl in *; lia|].
    apply Forall_cons in Hall as [Hm Hall]. simpl in Hm.
    destruct (processEvent_single now raw st t Hm) as [Hl Ht].
    rewrite Hnone in Hl.
    destruct (feed_existing t rest _ _ Hl Hall) as [Hc Htot].
    unfold Aggregator.feed in *. simpl. rewrite Hc, Htot, Ht. clear Hc Htot.
    simpl in Hlen. simpl. split; [|lia]. f_equal. f_equal; [lia|].
    rewrite last_cons in Hlast. rewrite fmap_last.
    destruct (last rest) as [m|]; by simplify_eq/=.
  - intros now raw s Hids. by apply processEvent_single.
  - intros now raw s. unfold Aggregator.processEvent.
    by rewrite foldl_record_read_total.
Qed.

(** C10. From the initial state, after any sequence of [processEvent],
    [clearTags] and [clearEvents] calls, [totalReads] is the sum of the
    [count] fields of the tag table; [clearTags] resets both together and
    [clearEvents] touches neither. *)
Theorem totalReads_is_sum_of_counts :
  (∀ calls,
     totalReads (run calls initial) = sum_counts (tagCounts (run calls initial)))
  ∧ (∀ st, tagCounts (clearTags st) = ∅ ∧ totalReads (clearTags st) = 0)
  ∧ (∀ st, tagCounts (clearEvents st) = tagCounts st
           ∧ totalReads (clearEvents st) = totalReads st).
Proof.
  split_and!; [|done|done].
  intros calls. apply run_counters. unfold sum_counts. simpl.
  by rewrite map_fold_empty.
Qed.

End WithDecoder.

Lemma event_log_cap_witness :
  length (tail (numbered 201)) = 200
  ∧ events (feed parse_throws (numbered 201) initial)
    = rev (map (entry parse_throws) (tail (numbered 201))).
Proof.
  split; [by vm_compute|].
  destruct (event_log_cap parse_throws) as (_ & _ & H).
  apply (H (lit "t0", lit "E0") (tail (numbered 201))). by vm_compute.
Defined.

Lemma tag_count_after_feeds_witness :
  tagCounts
    (feed parse_throws
       [ (lit "10:00:01", lit "AAAA1111");
         (lit "10:00:02", lit " AAAA1111");
         (lit "10:00:03", lit "AAAA1111 ") ] initial)
    !! lit "AAAA1111"
  = Some {| tc_id := lit "AAAA1111"; count := 3; lastSeen := lit "10:00:03" |}.
Proof.
  refine (proj1 (proj1 (tag_count_after_feeds parse_throws
    (lit "AAAA1111") 3
    [ (lit "10:00:01", lit "AAAA1111");
      (lit "10:00:02", lit " AAAA1111");
      (lit "10:00:03", lit "AAAA1111 ") ]
    (lit "10:00:03", lit "AAAA1111 ") initial
    _ _ _ _ _))).
  - lia.
  - reflexivity.
  - reflexivity.
  - reflexivity.
  - repeat (apply Forall_cons; split; [by vm_compute|]). constructor.
Defined.

End AggregatorFacts.

(* ===================================================================== *)
(** ** Properties of the event ingestion channel *)
(* ===================================================================== *)

Module ChannelFacts.
Import Channel.

Lemma open_sets_signal st :
  sseConnected (fire st SseOpen) = true ∧ sseConnected (fire st WsOpen) = true.
Proof. done. Qed.

(** A close or error of the socket leaves the signal alone while the
    server-push stream is open. *)
Lemma ws_drop_keeps_signal st cb :
  cb = WsClose ∨ cb = WsError →
  es_open st = true →
  sseConnected (fire st cb) = sseConnected st.
Proof.
  intros [-> | ->] Hopen; simpl;
    unfold ws_onclose, ws_onerror, es_not_open, es_open in *; simpl;
    by destruct (eventSource st) as [[]|].
Qed.

(** C1. The socket opens, then the server-push stream reports an error:
    the socket is still open and the merged signal is false.  So the signal
    is not true in every reachable state with an open transport; the error
    handler of the server-push stream, unlike the close and error handlers
    of the socket, does not look at the other transport. *)
Theorem sse_error_drops_signal_while_ws_open :
  let st := run [WsOpen; SseError true] in
  ws_open st = true
  ∧ sseConnected st = false
  ∧ sseConnected (run [WsOpen]) = true
  ∧ ¬ (∀ cbs, es_open (run cbs) || ws_open (run cbs) = true →
              sseConnected (run cbs) = true).
Proof.
  split_and!; [done..|].
  intros H. specialize (H [WsOpen; SseError true] eq_refl). done.
Qed.

End ChannelFacts.

(* ===================================================================== *)
(** ** Properties of the reconciliation engine *)
(* ===================================================================== *)

Module ReconciliationFacts.
Import Maleta.

Lemma length_pos_nonempty {A} (l : list A) : (0 <? length l) = true ↔ l ≠ [].
Proof. destruct l; simpl; [|done]. split; [done|]. by intros []. Qed.

Lemma filter_filter_map_nonempty {A B} (h : A → B) (f g : B → bool) l :
  List.filter g (List.filter f (map h l)) ≠ []
  ↔ Exists (λ x, f (h x) = true ∧ g (h x) = true) l.
Proof.
  induction l as [|x l IH]; simpl.
  - split; [done|]. by intros ?%Exists_nil.
  - rewrite Exists_cons, <-IH. clear IH.
    destruct (f (h x)) eqn:Ef; simpl; [destruct (g (h x)) eqn:Eg|];
      intuition congruence.
Qed.

Lemma existsb_map_Exists {A B} (h : A → B) (p : B → bool) l :
  existsb p (map h l) = true ↔ Exists (λ x, p (h x) = true) l.
Proof.
  induction l as [|x l IH]; simpl.
  - split; [done|]. by intros ?%Exists_nil.
  - rewrite Exists_cons, orb_true_iff, IH. done.
Qed.

Lemma existsb_Exists {A} (p : A → bool) l :
  existsb p l = true ↔ Exists (λ x, p x = true) l.
Proof. rewrite <-(existsb_map_Exists (λ x, x)). by rewrite map_id. Qed.

Lemma getMaletaStatus_spec m read :
  getMaletaStatus m read = case_status_spec m read.
Proof.
  unfold getMaletaStatus, case_status_spec, has_expired, has_missing.
  destruct (decide (default [] (expiredProductRfids m) ≠ [])) as [He|He].
  - by apply length_pos_nonempty in He as ->.
  - apply dec_stable in He. rewrite He.
    set (l := masterRfid m :: productRfids m).
    pose proof (filter_filter_map_nonempty trim (λ s, 0 <? length s)
                  (λ e, negb (includes read e)) l) as Hf.
    change (0 <? length (@nil jsstring)) with false. cbv iota.
    assert (Exists (λ x, trim x ≠ [] ∧ trim x ∉ read) l
            ↔ Exists (λ x, (0 <? length (trim x)) = true
                           ∧ negb (includes read (trim x)) = true) l) as Hex.
    { apply Exists_proper; [|done]. intros x.
      rewrite length_pos_nonempty. unfold includes.
      rewrite negb_true_iff, bool_decide_eq_false. done. }
    destruct (decide (Exists _ l)) as [Hd|Hd].
    + apply Hex, Hf, length_pos_nonempty in Hd. by rewrite Hd.
    + destruct (0 <? length _) eqn:E; [|done].
      apply length_pos_nonempty, Hf, Hex in E. done.
Qed.

Lemma status_red_iff m read : getMaletaStatus m read = red ↔ has_expired m.
Proof.
  rewrite getMaletaStatus_spec. unfold case_status_spec.
  repeat case_decide; naive_solver.
Qed.

Lemma status_never_yellow m read : getMaletaStatus m read ≠ yellow.
Proof.
  rewrite getMaletaStatus_spec. unfold case_status_spec.
  by repeat case_decide.
Qed.

Lemma elem_of_foldl_add x ps : ∀ acc : gset jsstring,
  x ∈ foldl (λ set r, {[trim r]} ∪ set) acc ps
  ↔ x ∈ acc ∨ Exists (λ y, x = trim y) ps.
Proof.
  induction ps as [|p ps IH]; intros acc; simpl.
  - rewrite Exists_nil. tauto.
  - rewrite IH, elem_of_union, elem_of_singleton, Exists_cons. tauto.
Qed.

Lemma elem_of_add_expected x set m :
  x ∈ add_expected set m
  ↔ x ∈ set ∨ Exists (λ y, x = trim y) (masterRfid m :: productRfids m).
Proof.
  unfold add_expected.
  rewrite elem_of_foldl_add, elem_of_union, elem_of_singleton, Exists_cons.
  tauto.
Qed.

Lemma elem_of_expected_union x maletas :
  x ∈ getExpectedTagUnion maletas ↔ Exists (λ m, expects m x) maletas.
Proof.
  unfold getExpectedTagUnion, expects.
  rewrite elem_of_difference, not_elem_of_singleton.
  assert (∀ set, x ∈ foldl add_expected set maletas
    ↔ x ∈ set ∨ Exists (λ m, Exists (λ y, x = trim y)
                                    (masterRfid m :: productRfids m)) maletas)
    as Hfold.
  { induction maletas as [|m ms IH]; intros set; simpl.
    - rewrite Exists_nil. tauto.
    - rewrite IH, elem_of_add_expected, !Exists_cons. tauto. }
  rewrite Hfold, elem_of_empty.
  split.
  - intros [[[]|Hex] Hne]. eapply Exists_impl; [exact Hex|]. by intros m Hm.
  - intros Hex. split.
    + right. eapply Exists_impl; [exact Hex|]. by intros m [_ Hm].
    + apply Exists_exists in Hex as (m & _ & Hne & _). done.
Qed.

Lemma hasUnknownTagRead_spec maletas read :
  maletas ≠ [] →
  hasUnknownTagRead maletas read = true ↔ Exists (unlisted maletas) read.
Proof.
  intros Hne. unfold hasUnknownTagRead.
  destruct maletas as [|m ms]; [done|]. cbn [length Nat.eqb].
  rewrite existsb_Exists. apply Exists_proper; [|done]. intros r.
  unfold unlisted.
  rewrite andb_true_iff, negb_true_iff, bool_decide_eq_false,
    length_pos_nonempty, elem_of_expected_union. done.
Qed.

Lemma generalSemaphoreStatus_spec maletas read :
  generalSemaphoreStatus maletas read = general_status_spec maletas read.
Proof.
  unfold generalSemaphoreStatus, general_status_spec.
  destruct (decide (maletas = [])) as [->|Hne]; [done|].
  assert ((length maletas =? 0) = false) as ->
    by (destruct maletas; [done|by simpl]).
  cbv zeta.
  destruct (decide (Exists has_expired maletas)) as [He|He].
  { assert (existsb (λ s, bool_decide (s = red))
              (map (λ m, getMaletaStatus m read) maletas) = true) as ->; [|done].
    apply existsb_map_Exists. eapply Exists_impl; [exact He|].
    intros m Hm. simpl. by apply bool_decide_eq_true, status_red_iff. }
  assert (existsb (λ s, bool_decide (s = red))
            (map (λ m, getMaletaStatus m read) maletas) = false) as ->.
  { apply not_true_is_false. intros H. apply He.
    apply existsb_map_Exists in H. eapply Exists_impl; [exact H|].
    intros m Hm. simpl in Hm.
    by apply bool_decide_eq_true, status_red_iff in Hm. }
  destruct (decide (Exists (unlisted maletas) read)) as [Hu|Hu].
  { by apply hasUnknownTagRead_spec in Hu as ->. }
  assert (hasUnknownTagRead maletas read = false) as ->.
  { apply not_true_is_false. intros H. by apply Hu, hasUnknownTagRead_spec. }
  assert (existsb (λ s, bool_decide (s = yellow))
            (map (λ m, getMaletaStatus m read) maletas) = false) as ->.
  { apply not_true_is_false. intros H.
    apply existsb_map_Exists, Exists_exists in H as (m & _ & Hm).
    simpl in Hm. apply bool_decide_eq_true in Hm.
    by apply status_never_yellow in Hm. }
  destruct (decide (Exists _ maletas)) as [Hb|Hb].
  - assert (existsb (λ s, bool_decide (s = blue))
              (map (λ m, getMaletaStatus m read) maletas) = true) as ->; [|done].
    apply existsb_map_Exists. eapply Exists_impl; [exact Hb|].
    intros m Hm. simpl. by apply bool_decide_eq_true.
  - assert (existsb (λ s, bool_decide (s = blue))
              (map (λ m, getMaletaStatus m read) maletas) = false) as ->; [|done].
    apply not_true_is_false. intros H. apply Hb.
    apply existsb_map_Exists in H. eapply Exists_impl; [exact H|].
    intros m Hm. simpl in Hm. by apply bool_decide_eq_true in Hm.
Qed.

Lemma has_missing_elem read m :
  has_missing read m
  ↔ ∃ t, t ∈ map trim (masterRfid m :: productRfids m) ∧ t ≠ [] ∧ t ∉ read.
Proof.
  unfold has_missing. rewrite Exists_exists. split.
  - intros (x & Hx & Hne & Hnr). exists (trim x). split_and!; [|done..].
    apply list_elem_of_fmap. by exists x.
  - intros (t & Ht & Hne & Hnr).
    apply list_elem_of_fmap in Ht as (x & -> & Hx). by exists x.
Qed.

Lemma some_blue_iff_some_missing maletas read :
  ¬ Exists has_expired maletas →
  Exists (λ m, getMaletaStatus m read = blue) maletas
  ↔ Exists (has_missing read) maletas.
Proof.
  intros Hne. rewrite !Exists_exists.
  split; intros (m & Hin & Hm); exists m; (split; [done|]).
  - rewrite getMaletaStatus_spec in Hm. unfold case_status_spec in Hm.
    by repeat case_decide.
  - rewrite getMaletaStatus_spec. unfold case_status_spec.
    rewrite decide_False, decide_True; [done..|].
    intros He. apply Hne, Exists_exists. by exists m.
Qed.

(** C2. The aggregate status follows the precedence: no case, complete;
    else some case with a non-empty expired set, expired; else some
    non-empty read that is the trimmed, non-empty master or product tag of
    no case, anomalous; else some case of which an expected tag (the trim,
    when not empty, of its master or of a product tag) is absent from the
    read set, incomplete; else complete. *)
Theorem general_status_precedence (maletas : list MaletaItem)
    (read : list jsstring) :
  generalSemaphoreStatus maletas read =
    if decide (maletas = []) then green
    else if decide (Exists has_expired maletas) then red
    else if decide (Exists (unlisted maletas) read) then yellow
    else if decide (Exists (has_missing read) maletas) then blue
    else green.
Proof.
  rewrite generalSemaphoreStatus_spec. unfold general_status_spec.
  destruct (decide (maletas = [])); [done|].
  destruct (decide (Exists has_expired maletas)) as [He|He]; [done|].
  destruct (decide (Exists (unlisted maletas) read)); [done|].
  pose proof (some_blue_iff_some_missing maletas read He) as Hiff.
  destruct (decide (Exists (λ m, getMaletaStatus m read = blue) maletas)),
    (decide (Exists (has_missing read) maletas)); tauto.
Qed.

(** C3. The status of one case is expired exactly when its expired set is
    not empty, whatever was read; otherwise incomplete exactly when the
    trim of its master or of one of its product tags is not empty and
    absent from the read set; otherwise complete.  Only the set of trimmed
    expected tags matters: repeating a tag in the expected list, or listing
    the master among the products, changes nothing. *)
Theorem case_status_precedence :
  (∀ m read,
     getMaletaStatus m read =
       if decide (has_expired m) then red
       else if decide (has_missing read m) then blue
       else green)
  ∧ (∀ m read read', has_expired m →
       getMaletaStatus m read = red ∧ getMaletaStatus m read' = red)
  ∧ (∀ m m' read,
       expiredProductRfids m = expiredProductRfids m' →
       (∀ t, t ∈ map trim (masterRfid m :: productRfids m)
             ↔ t ∈ map trim (masterRfid m' :: productRfids m')) →
       getMaletaStatus m read = getMaletaStatus m' read).
Proof.
  split_and!.
  - intros m read. apply getMaletaStatus_spec.
  - intros m read read' He. split; by apply status_red_iff.
  - intros m m' read Hexp Hset. rewrite !getMaletaStatus_spec.
    unfold case_status_spec.
    assert (has_expired m ↔ has_expired m') as Hexp'
      by (unfold has_expired; by rewrite Hexp).
    assert (has_missing read m ↔ has_missing read m') as Hiff.
    { rewrite !has_missing_elem. by setoid_rewrite Hset. }
    destruct (decide (has_expired m)), (decide (has_expired m')),
      (decide (has_missing read m)), (decide (has_missing read m'));
      tauto.
Qed.

Lemma case_status_precedence_witness :
  let m := {| item_id := lit "a"; masterRfid := lit "M";
              productRfids := [lit "A"; lit "B"];
              createdAt := lit "t"; expiredProductRfids := None |} in
  let m' := {| item_id := lit "b"; masterRfid := lit "M";
               productRfids := [lit "A"; lit " M "; lit "B"; lit "A"];
               createdAt := lit "t"; expiredProductRfids := None |} in
  getMaletaStatus m [lit "M"; lit "A"; lit "B"]
  = getMaletaStatus m' [lit "M"; lit "A"; lit "B"]
  ∧ getMaletaStatus
      {| item_id := lit "a"; masterRfid := lit "M";
         productRfids := [lit "A"; lit "B"];
         createdAt := lit "t"; expiredProductRfids := Some [lit "A"] |}
      [lit "M"; lit "A"; lit "B"] = red.
Proof.
  intros m m'. destruct case_status_precedence as (_ & Hred & Hdup). split.
  - apply (Hdup m m'); [reflexivity|].
    intros t.
    assert (map trim (masterRfid m :: productRfids m)
            = [lit "M"; lit "A"; lit "B"]) as -> by (by vm_compute).
    assert (map trim (masterRfid m' :: productRfids m')
            = [lit "M"; lit "A"; lit "M"; lit "B"; lit "A"]) as ->
      by (by vm_compute).
    rewrite !elem_of_cons, !elem_of_nil. tauto.
  - refine (proj1 (Hred _ _ [] _)). by vm_compute.
Defined.

End ReconciliationFacts.

(* ===================================================================== *)
(** ** Properties of [trim] *)
(* ===================================================================== *)

Module TrimFacts.

Lemma trimStart_blank_app a s : blank a → trimStart (a ++ s) = trimStart s.
Proof.
  induction 1 as [|c a Hc _ IH]; simpl; [done|]. by rewrite Hc.
Qed.

Lemma trimStart_blank a : blank a → trimStart a = [].
Proof.
  intros Ha. rewrite <-(app_nil_r a). by rewrite trimStart_blank_app.
Qed.

Lemma trimStart_decomp s : ∃ a, s = a ++ trimStart s ∧ blank a.
Proof.
  induction s as [|c s (a & IH & Ha)]; simpl.
  - exists []. split; [done|constructor].
  - destruct (is_white c) eqn:Hc.
    + exists (c :: a). split; [by rewrite IH at 1|by constructor].
    + exists []. split; [done|constructor].
Qed.

Lemma trimStart_head s :
  match trimStart s with [] => True | c :: _ => is_white c = false end.
Proof.
  induction s as [|c s IH]; simpl; [done|].
  destruct (is_white c) eqn:Hc; [done|]. by simpl.
Qed.

Lemma trimStart_fixed c s : is_white c = false → trimStart (c :: s) = c :: s.
Proof. intros Hc. simpl. by rewrite Hc. Qed.

Lemma blank_rev a : blank a → blank (rev a).
Proof.
  intros Ha. apply Forall_forall. intros x Hx.
  apply list_elem_of_In, in_rev, list_elem_of_In in Hx.
  by apply (proj1 (Forall_forall _ _) Ha).
Qed.

(** [trim] is determined by any split of the string into white space, a
    trimmed core, white space. *)
Lemma trim_unique a m b :
  blank a → blank b → trimmed m → trim (a ++ m ++ b) = m.
Proof.
  intros Ha Hb [Hh Hl]. unfold trim, trimEnd.
  rewrite trimStart_blank_app by done.
  destruct m as [|c m].
  - simpl. by rewrite (trimStart_blank b).
  - rewrite <-app_comm_cons, trimStart_fixed by done.
    rewrite app_comm_cons, rev_app_distr.
    rewrite trimStart_blank_app by by apply blank_rev.
    destruct (rev (c :: m)) as [|x r] eqn:Hr.
    + apply (f_equal length) in Hr. by rewrite length_rev in Hr.
    + rewrite trimStart_fixed by done.
      rewrite <-Hr. apply rev_involutive.
Qed.

Lemma trim_decomp s :
  ∃ a b, s = a ++ trim s ++ b ∧ blank a ∧ blank b ∧ trimmed (trim s).
Proof.
  destruct (trimStart_decomp s) as (a & Hs & Ha).
  destruct (trimStart_decomp (rev (trimStart s))) as (b & Hu & Hb).
  exists a, (rev b). unfold trim, trimEnd.
  set (u := trimStart s) in *. set (v := trimStart (rev u)) in *.
  assert (u = rev v ++ rev b) as Hu'.
  { rewrite <-rev_app_distr, <-Hu. by rewrite rev_involutive. }
  split_and!; [by rewrite <-Hu'|done|by apply blank_rev|].
  split.
  - pose proof (trimStart_head s) as Hh. fold u in Hh. rewrite Hu' in Hh.
    destruct (rev v); [done|]. by simpl in Hh.
  - rewrite rev_involutive. apply trimStart_head.
Qed.

Lemma trim_trimmed s : trimmed (trim s).
Proof. by destruct (trim_decomp s) as (_ & _ & _ & _ & _ & H). Qed.

Lemma trim_idemp s : trim (trim s) = trim s.
Proof.
  rewrite <-(app_nil_r (trim s)) at 1.
  apply (trim_unique [] (trim s) []); [constructor..|apply trim_trimmed].
Qed.

Lemma trim_app_blank s w : blank w → trim (s ++ w) = trim s.
Proof.
  intros Hw. destruct (trim_decomp s) as (a & b & Hs & Ha & Hb & Ht).
  rewrite Hs at 1. rewrite <-!app_assoc.
  apply trim_unique; [done|by apply Forall_app|done].
Qed.

Lemma trim_blank_app w s : blank w → trim (w ++ s) = trim s.
Proof.
  intros Hw. unfold trim. by rewrite trimStart_blank_app.
Qed.

Lemma trim_nil : trim [] = [].
Proof. done. Qed.

Lemma trimmed_nonempty_head m :
  trimmed m → m ≠ [] → ∃ c r, m = c :: r ∧ is_white c = false.
Proof. intros [Hh _] Hne. destruct m as [|c r]; [done|]. by exists c, r. Qed.

Lemma startsWith_app p s : startsWith p (p ++ s) = true.
Proof.
  induction p as [|c p IH]; simpl; [by destruct s|]. by rewrite decide_True.
Qed.

Lemma startsWith_prefix p s :
  startsWith p s = true ↔ ∃ r, s = p ++ r.
Proof.
  revert s. induction p as [|c p IH]; intros s; simpl.
  - split; [|by destruct s]. intros _. by exists s.
  - destruct s as [|b s]; [split; [done|by intros (r & ?)]|].
    destruct (decide (c = b)) as [->|Hne].
    + rewrite IH. split; intros (r & Hr); exists r; by simplify_eq/=.
    + split; [done|]. intros (r & Hr). by simplify_eq/=.
Qed.

End TrimFacts.

(* ===================================================================== *)
(** ** Properties of the case text format *)
(* ===================================================================== *)

Module TextFormatFacts.
Import Maleta TrimFacts.

(** *** Splitting what was joined *)

Lemma split_lines_no_lf l : LF ∉ l → split_lines l = [l].
Proof.
  induction l as [|c l IH]; intros Hl; [done|].
  apply not_elem_of_cons in Hl as [Hc Hl]. specialize (IH Hl).
  cbn [split_lines]. rewrite decide_False by done.
  destruct l as [|c2 l']; [done|].
  rewrite decide_False.
  - by rewrite IH.
  - intros [_ ->]. apply Hl. by left.
Qed.

Lemma split_lines_app_lf l s :
  LF ∉ l →
  ∃ h, split_lines (l ++ LF :: s) = h :: split_lines s
       ∧ (h = l ∨ l = h ++ [CR]).
Proof.
  induction l as [|c l IH]; intros Hl.
  - exists []. by split; [|left].
  - apply not_elem_of_cons in Hl as [Hc Hl].
    destruct (IH Hl) as (h & Hsplit & Hh).
    rewrite <-app_comm_cons. cbn [split_lines]. rewrite decide_False by done.
    destruct l as [|c2 l'].
    + cbn [app]. destruct (decide (c = CR ∧ LF = LF)) as [[-> _]|Hn].
      * exists []. split; [done|by right].
      * exists [c]. by split; [|left].
    + rewrite <-app_comm_cons. rewrite decide_False.
      * rewrite app_comm_cons, Hsplit. exists (c :: h). split; [done|].
        destruct Hh as [->| ->]; [by left|by right].
      * intros [_ ->]. apply Hl. by left.
Qed.

Lemma split_join_lines ls :
  ls ≠ [] →
  Forall (λ l, LF ∉ l) ls →
  map trim (split_lines (join_lines ls)) = map trim ls.
Proof.
  induction ls as [|l ls IH]; intros Hne Hall; [done|].
  apply Forall_cons in Hall as [Hl Hall].
  destruct ls as [|l2 ls].
  - simpl. by rewrite split_lines_no_lf.
  - change (join_lines (l :: l2 :: ls))
      with (l ++ LF :: join_lines (l2 :: ls)).
    destruct (split_lines_app_lf l (join_lines (l2 :: ls)) Hl)
      as (h & -> & Hh).
    change (map trim (h :: split_lines (join_lines (l2 :: ls))))
      with (trim h :: map trim (split_lines (join_lines (l2 :: ls)))).
    rewrite (IH ltac:(done) Hall).
    change (map trim (l :: l2 :: ls)) with (trim l :: map trim (l2 :: ls)).
    f_equal. destruct Hh as [->| ->]; [done|].
    rewrite trim_app_blank; [done|]. by repeat constructor.
Qed.

(** *** Parsing what was exported *)

Section WithClock.
Variable clock : nat → jsstring * jsstring.

Local Abbreviation parse_line := (parse_line clock).
Local Abbreviation parseMaletasTxt := (parseMaletasTxt clock).

Lemma push_to_current_snoc line res cur :
  push_to_current line (res ++ [cur]) =
  res ++ [ {| item_id := item_id cur; masterRfid := masterRfid cur;
              productRfids := productRfids cur ++ [line];
              createdAt := createdAt cur;
              expiredProductRfids := expiredProductRfids cur |} ].
Proof.
  induction res as [|m res IH]; [done|].
  rewrite <-!app_comm_cons. cbn [push_to_current]. rewrite IH.
  by destruct (res ++ [cur]) eqn:E; [destruct res|].
Qed.

Lemma parse_line_master res master :
  trim master ≠ [] →
  parse_line res (trim (TXT_MAESTRO_PREFIX ++ master)) =
  res ++ [ {| item_id := lit "maleta_" ++ (clock (length res)).1
                          ++ lit "_" ++ decimal (length res);
              masterRfid := trim master;
              productRfids := [];
              createdAt := (clock (length res)).2;
              expiredProductRfids := None |} ].
Proof.
  intros Hne.
  destruct (trim_decomp master) as (a & b & Hm & Ha & Hb & Ht).
  destruct (trimmed_nonempty_head _ Ht Hne) as (c & r & Hc & Hw).
  assert (trim (TXT_MAESTRO_PREFIX ++ master)
          = TXT_MAESTRO_PREFIX ++ a ++ trim master) as Hline.
  { rewrite Hm at 1.
    replace (TXT_MAESTRO_PREFIX ++ a ++ trim master ++ b)
      with ([] ++ (TXT_MAESTRO_PREFIX ++ a ++ trim master) ++ b)
      by (by rewrite <-!app_assoc).
    apply trim_unique; [constructor|done|]. split; [done|].
    rewrite !rev_app_distr. destruct Ht as [_ Hl].
    destruct (rev (trim master)) as [|x xs] eqn:Hr; [|done].
    apply (f_equal length) in Hr. rewrite length_rev, Hc in Hr. done. }
  rewrite Hline. unfold Maleta.parse_line.
  replace (truthy_str (TXT_MAESTRO_PREFIX ++ a ++ trim master)) with true
    by done.
  replace (startsWith (lit "#") (TXT_MAESTRO_PREFIX ++ a ++ trim master))
    with false by done.
  rewrite startsWith_app. cbn [negb orb].
  replace (slice (length TXT_MAESTRO_PREFIX)
             (TXT_MAESTRO_PREFIX ++ a ++ trim master))
    with (a ++ trim master) by done.
  rewrite (trim_blank_app a) by done. rewrite trim_idemp.
  by rewrite Hc.
Qed.

Lemma portable_product_inv p :
  portable_product p = true →
  p ≠ [] ∧ LF ∉ p ∧ startsWith (lit "#") p = false
  ∧ startsWith TXT_MAESTRO_PREFIX p = false.
Proof.
  unfold portable_product.
  rewrite !andb_true_iff, !negb_true_iff, bool_decide_eq_false.
  intros [[[H1 H2] H3] H4]. split_and!; [|done..]. by destruct p.
Qed.

Lemma parse_line_product res cur p :
  portable_product p = true →
  parse_line (res ++ [cur]) p =
  res ++ [ {| item_id := item_id cur; masterRfid := masterRfid cur;
              productRfids := productRfids cur ++ [p];
              createdAt := createdAt cur;
              expiredProductRfids := expiredProductRfids cur |} ].
Proof.
  intros (Hne & _ & Hc & Hm)%portable_product_inv.
  unfold Maleta.parse_line. rewrite Hc, Hm.
  destruct p as [|x p]; [done|]. cbn [truthy_str negb orb].
  apply push_to_current_snoc.
Qed.

Lemma parse_products ps : ∀ res cur,
  forallb (λ p, portable_product (trim p)) ps = true →
  foldl parse_line (res ++ [cur]) (map trim (map trim ps)) =
  res ++ [ {| item_id := item_id cur; masterRfid := masterRfid cur;
              productRfids := productRfids cur ++ map trim ps;
              createdAt := createdAt cur;
              expiredProductRfids := expiredProductRfids cur |} ].
Proof.
  induction ps as [|p ps IH]; intros res cur Hall.
  - simpl. rewrite app_nil_r. by destruct cur.
  - simpl in Hall. apply andb_true_iff in Hall as [Hp Hall].
    cbn [map foldl]. rewrite trim_idemp, parse_line_product by done.
    rewrite IH by done. cbn. by rewrite <-app_assoc.
Qed.

Lemma parse_case res m :
  portable m = true →
  foldl parse_line res (map trim (case_lines m)) =
  res ++ [ {| item_id := lit "maleta_" ++ (clock (length res)).1
                          ++ lit "_" ++ decimal (length res);
              masterRfid := trim (masterRfid m);
              productRfids := map trim (productRfids m);
              createdAt := (clock (length res)).2;
              expiredProductRfids := None |} ].
Proof.
  unfold portable. rewrite !andb_true_iff. intros [[Hm _] Hps].
  unfold case_lines. cbn [map foldl].
  rewrite parse_line_master by (by destruct (trim (masterRfid m))).
  rewrite map_app, foldl_app, parse_products by done. done.
Qed.

Lemma parse_cases ms : ∀ res,
  forallb portable ms = true →
  map tags_of (foldl parse_line res (map trim (concat (map case_lines ms))))
  = map tags_of res
    ++ map (λ m, (trim (masterRfid m), map trim (productRfids m))) ms
  ∧ (Forall (λ m, expiredProductRfids m = None) res →
     Forall (λ m, expiredProductRfids m = None)
       (foldl parse_line res (map trim (concat (map case_lines ms))))).
Proof.
  induction ms as [|m ms IH]; intros res Hall.
  - simpl. by rewrite app_nil_r.
  - simpl in Hall. apply andb_true_iff in Hall as [Hm Hall].
    cbn [map concat]. rewrite map_app, foldl_app, parse_case by done.
    destruct (IH (res ++ [ {| item_id := lit "maleta_" ++ (clock (length res)).1
                          ++ lit "_" ++ decimal (length res);
              masterRfid := trim (masterRfid m);
              productRfids := map trim (productRfids m);
              createdAt := (clock (length res)).2;
              expiredProductRfids := None |} ]) Hall) as [-> Hnone].
    split.
    + rewrite map_app. cbn. by rewrite <-app_assoc.
    + intros Hres. apply Hnone, Forall_app. split; [done|].
      by repeat constructor.
Qed.

Lemma portable_lines_no_lf ms :
  forallb portable ms = true →
  Forall (λ l, LF ∉ l) (concat (map case_lines ms)).
Proof.
  induction ms as [|m ms IH]; intros Hall; [constructor|].
  simpl in Hall. apply andb_true_iff in Hall as [Hm Hall].
  cbn [map concat]. apply Forall_app. split; [|by apply IH].
  unfold portable in Hm. rewrite !andb_true_iff in Hm.
  destruct Hm as [[_ Hlf] Hps].
  apply negb_true_iff, bool_decide_eq_false in Hlf.
  unfold case_lines. constructor.
  - assert (LF ∉ TXT_MAESTRO_PREFIX) as Hp by compute_done.
    rewrite elem_of_app. by intros [H|H].
  - apply Forall_app. split; [|by repeat constructor; apply not_elem_of_nil].
    apply Forall_forall. intros l (p & -> & Hp)%list_elem_of_fmap.
    apply list_elem_of_In in Hp.
    pose proof (proj1 (forallb_forall _ _) Hps p Hp) as Hpp.
    by apply portable_product_inv in Hpp as (_ & ? & _).
Qed.

Lemma parse_line_no_marker line :
  startsWith TXT_MAESTRO_PREFIX line = false → parse_line [] line = [].
Proof.
  intros Hm. unfold Maleta.parse_line. rewrite Hm.
  by destruct (negb (truthy_str line) || startsWith (lit "#") line),
    (truthy_str line).
Qed.

(** C4, as the code has it.  For a collection in which every master tag
    has a non-empty trim and holds no line feed, and every product tag,
    once trimmed, is not empty, holds no line feed and starts neither with
    [#] nor with [MAESTRO ], parsing the exported text yields the same
    sequence of cases, each with its master tag trimmed and its product
    tags trimmed, in the same order; ids and timestamps are new and no
    parsed case carries expired flags. *)
Theorem export_parse_round_trip (maletas : list MaletaItem) :
  forallb portable maletas = true →
  map tags_of (parseMaletasTxt (exportMaletasToTxt maletas))
  = map (λ m, (trim (masterRfid m), map trim (productRfids m))) maletas
  ∧ Forall (λ m, expiredProductRfids m = None)
      (parseMaletasTxt (exportMaletasToTxt maletas)).
Proof.
  intros Hall. unfold Maleta.parseMaletasTxt, exportMaletasToTxt.
  rewrite split_join_lines.
  - rewrite map_app, foldl_app.
    change (foldl parse_line [] (map trim [header1; header2; []]))
      with (@nil MaletaItem).
    destruct (parse_cases maletas [] Hall) as [Htags Hnone].
    split; [exact Htags|]. apply Hnone. constructor.
  - done.
  - apply Forall_app. split; [|by apply portable_lines_no_lf].
    repeat constructor; compute_done.
Qed.

(** C5. A text none of whose lines, trimmed, starts with [MAESTRO ] parses
    to the empty list, and importing it leaves the case list and what is
    saved as they were; an import changes them only when the parse yields
    at least one case. *)
Theorem import_without_master_keeps_cases (text : jsstring) :
  Forall (λ line, startsWith TXT_MAESTRO_PREFIX (trim line) = false)
         (split_lines text) →
  parseMaletasTxt text = []
  ∧ (∀ ok st, importMaletas_onload clock ok text st = st)
  ∧ (∀ ok text' st,
       importMaletas_onload clock ok text' st ≠ st →
       parseMaletasTxt text' ≠ []
       ∧ maletas (importMaletas_onload clock ok text' st)
         = parseMaletasTxt text').
Proof.
  intros Hall.
  assert (parseMaletasTxt text = []) as Hnil.
  { unfold Maleta.parseMaletasTxt.
    induction Hall as [|line lines Hline _ IH]; [done|].
    cbn [map foldl]. by rewrite parse_line_no_marker. }
  split_and!; [done| |].
  - intros ok st. unfold importMaletas_onload. by rewrite Hnil.
  - intros ok text' st Hneq. unfold importMaletas_onload in *.
    destruct (Maleta.parseMaletasTxt clock text') as [|m ms]; [done|].
    done.
Qed.

End WithClock.

(** C4 as stated fails: a product tag that starts with [#] is exported on a
    line that the parser skips as a comment. *)
Lemma round_trip_loses_comment_like_tag :
  let cs := [ {| item_id := lit "maleta_1"; masterRfid := lit "M001";
                 productRfids := [lit "#A01"];
                 createdAt := lit "2025-01-01T00:00:00.000Z";
                 expiredProductRfids := None |} ] in
  let back := parseMaletasTxt fixed_clock (exportMaletasToTxt cs) in
  ¬ (map masterRfid back = map masterRfid cs
     ∧ Forall2 (λ ps qs, ps ≡ₚ qs)
         (map productRfids back) (map productRfids cs)).
Proof.
  intros cs back [_ H].
  assert (map productRfids back = [[]]) as Hb by (by vm_compute).
  rewrite Hb in H. simpl in H.
  apply Forall2_cons in H as [H _].
  by apply Permutation_length in H.
Qed.

Lemma export_parse_round_trip_witness :
  map tags_of
    (parseMaletasTxt fixed_clock
       (exportMaletasToTxt
          [ {| item_id := lit "maleta_1"; masterRfid := lit "M001";
               productRfids := [lit " A01 "; lit "B02"; lit "A01"];
               createdAt := lit "t"; expiredProductRfids := Some [lit "B02"] |};
            {| item_id := lit "maleta_2"; masterRfid := lit "M002";
               productRfids := [];
               createdAt := lit "t"; expiredProductRfids := None |} ]))
  = [ (lit "M001", [lit "A01"; lit "B02"; lit "A01"]); (lit "M002", []) ].
Proof.
  refine (eq_trans
    (proj1 (export_parse_round_trip fixed_clock _ _)) _); by vm_compute.
Defined.

Lemma import_without_master_keeps_cases_witness :
  let text := lit "# nota" ++ [CR; LF] ++ lit "AAAA1111" ++ [LF]
              ++ lit "MAESTRO" in
  let st := {| maletas := [ {| item_id := lit "maleta_1";
                               masterRfid := lit "M001";
                               productRfids := [lit "A01"];
                               createdAt := lit "t";
                               expiredProductRfids := None |} ];
               saved := [] |} in
  importMaletas_onload fixed_clock true text st = st.
Proof.
  intros text st.
  refine (proj1 (proj2 (import_without_master_keeps_cases fixed_clock text _))
            true st).
  repeat (apply Forall_cons; split; [by vm_compute|]). constructor.
Defined.

End TextFormatFacts.

(* ===================================================================== *)
(** ** Further properties of the extractor *)
(* ===================================================================== *)

Module ExtractorMore.
Import Extractor ExtractorSpec ExtractorFacts TrimFacts Payload.

(** Induction on payloads, through arrays and objects. *)
Lemma json_nested_ind (P : json → Prop) :
  P JNull →
  (∀ b, P (JBool b)) →
  (∀ x, P (JNum x)) →
  (∀ s, P (JStr s)) →
  (∀ items, Forall P items → P (JArr items)) →
  (∀ d, Forall (λ kv, P kv.2) d → P (JObj d)) →
  ∀ v, P v.
Proof.
  intros Hnull Hbool Hnum Hstr Harr Hobj.
  fix IH 1. intros [|b|x|s|items|d].
  - exact Hnull.
  - apply Hbool.
  - apply Hnum.
  - apply Hstr.
  - apply Harr.
    refine ((fix go (l : list json) : Forall P l :=
               match l with
               | [] => @List.Forall_nil _ P
               | x :: r => @List.Forall_cons _ P x r (IH x) (go r)
               end) items).
  - apply Hobj.
    refine ((fix go (l : list (jsstring * json))
               : Forall (λ kv, P kv.2) l :=
               match l with
               | [] => @List.Forall_nil _ _
               | kv :: r => @List.Forall_cons _ _ kv r (IH kv.2) (go r)
               end) d).
Qed.

Lemma for_first_inv {A} (f : A → option jsstring) l id :
  for_first f l = Some id → ∃ x, x ∈ l ∧ f x = Some id.
Proof.
  induction l as [|x r IH]; simpl; [done|].
  destruct (keep (f x)) as [id'|] eqn:E.
  - intros [= <-]. apply keep_truthy in E as [E _].
    exists x. split; [by left|done].
  - intros (y & Hy & Hf)%IH. exists y. split; [by right|done].
Qed.

Lemma get_elem d key v : get d key = Some v → (key, v) ∈ d.
Proof.
  induction d as [|[k w] r IH]; simpl; [done|].
  destruct (decide (k = key)) as [->|Hne].
  - intros [= ->]. by left.
  - intros H. right. by apply IH.
Qed.

Lemma scan_preferidos_inv d keys id :
  scan_preferidos d keys = Some id →
  ∃ key v, key ∈ keys ∧ get d key = Some (JStr v)
           ∧ id = trim v ∧ trim v ≠ [].
Proof.
  induction keys as [|key rest IH]; simpl; [done|].
  assert (scan_preferidos d rest = Some id →
          ∃ key0 v, key0 ∈ key :: rest ∧ get d key0 = Some (JStr v)
                    ∧ id = trim v ∧ trim v ≠ []) as Hrest.
  { intros (k & v & Hk & Hg & Hid & Hne)%IH. exists k, v.
    split_and!; [by right|done..]. }
  destruct (get d key) as [[| | |v| |]|] eqn:Hg; try exact Hrest.
  destruct (trim v) as [|c s] eqn:Ht; [exact Hrest|].
  intros [= <-]. exists key, v. rewrite Ht. split_and!; [by left|done..].
Qed.

Lemma elem_of_concat_map {A B} (f : A → list B) l a x :
  a ∈ l → x ∈ f a → x ∈ concat (map f l).
Proof.
  intros Ha Hx. induction Ha as [a l|a b l _ IH]; simpl;
    apply elem_of_app; [by left|right; by apply IH].
Qed.

Lemma or_else_inv a b id :
  or_else a b = Some id → a = Some id ∨ (a = None ∧ b = Some id).
Proof. destruct a; simpl; [by left|by right]. Qed.

(** Where an extracted id comes from. *)
Lemma extractTagId_source data : ∀ id,
  extractTagId data = Some id →
  id ≠ [] ∧ trimmed id ∧ ∃ s, s ∈ strings_in data ∧ id = trim s.
Proof.
  induction data as [|b|x|s|items IH|d IH] using json_nested_ind;
    intros id Hid; try done.
  - cbn [extractTagId] in Hid. cbv zeta in Hid.
    assert (Some (trim s) = Some id ∧ trim s ≠ []) as [[= <-] Hne].
    { destruct ((6 <=? length (trim s)) && test_hex (trim s)) eqn:E.
      - split; [done|]. apply andb_true_iff in E as [E _].
        apply Nat.leb_le in E. intros Hn. rewrite Hn in E. simpl in E. lia.
      - destruct (0 <? length (trim s)) eqn:E'; [|done].
        split; [done|]. intros Hn. by rewrite Hn in E'. }
    split_and!; [done|apply trim_trimmed|].
    exists s. split; [by left|done].
  - cbn [extractTagId] in Hid.
    apply for_first_inv in Hid as (x & Hx & Hid).
    destruct (proj1 (Forall_forall _ _) IH x Hx id Hid)
      as (Hne & Ht & s & Hs & ->).
    split_and!; [done..|]. exists s. split; [|done].
    cbn [strings_in]. by apply (elem_of_concat_map strings_in items x).
  - assert (∀ k v id', (k, v) ∈ d → extractTagId v = Some id' →
              id' ≠ [] ∧ trimmed id' ∧
              ∃ s, s ∈ strings_in (JObj d) ∧ id' = trim s) as Hval.
    { intros k v id' Hin Hv.
      destruct (proj1 (Forall_forall _ _) IH (k, v) Hin id' Hv)
        as (Hne & Ht & s & Hs & ->).
      split_and!; [done..|]. exists s. split; [|done].
      cbn [strings_in].
      by apply (elem_of_concat_map (λ '(_, v), strings_in v) d (k, v)). }
    rewrite extractTagId_object in Hid.
    apply or_else_inv in Hid as [Hid|[_ Hid]].
    { apply scan_preferidos_inv in Hid as (key & v & _ & Hg & -> & Hne).
      split_and!; [done|apply trim_trimmed|].
      exists v. split; [|done]. apply get_elem in Hg.
      cbn [strings_in].
      apply (elem_of_concat_map (λ '(_, v), strings_in v) d (key, JStr v));
        [done|by left]. }
    apply or_else_inv in Hid as [Hid|[_ Hid]].
    { destruct (get d (lit "tag")) as [tag|] eqn:Hg; [|done].
      destruct (truthy tag); [|done].
      apply keep_truthy in Hid as [Hid _].
      by apply (Hval _ _ _ (get_elem _ _ _ Hg)). }
    apply or_else_inv in Hid as [Hid|[_ Hid]].
    { destruct (get d (lit "tags")) as [[| | | |ts|]|] eqn:Hg; try done.
      by apply (Hval _ _ _ (get_elem _ _ _ Hg)). }
    apply or_else_inv in Hid as [Hid|[_ Hid]].
    { destruct (get d (lit "data")) as [v|] eqn:Hg; [|done].
      destruct (truthy v); [|done].
      apply keep_truthy in Hid as [Hid _].
      by apply (Hval _ _ _ (get_elem _ _ _ Hg)). }
    apply for_first_inv in Hid as ([k v] & Hin & Hid).
    by apply (Hval k v).
Qed.

Lemma keep_extractTagId data : keep (extractTagId data) = extractTagId data.
Proof.
  destruct (extractTagId data) as [id|] eqn:E; [|done].
  apply extractTagId_source in E as (Hne & _). by destruct id.
Qed.

(** X1. An id returned by [extractTagId] is never empty and has no white
    space at either end. *)
Theorem extractTagId_nonempty_trimmed (data : json) (id : jsstring) :
  extractTagId data = Some id → id ≠ [] ∧ trimmed id ∧ trim id = id.
Proof.
  intros (Hne & Ht & _)%extractTagId_source. split_and!; [done..|].
  pose proof (trim_unique [] id [] ltac:(constructor) ltac:(constructor) Ht)
    as H. simpl in H. by rewrite app_nil_r in H.
Qed.

Lemma extractTagId_nonempty_trimmed_witness :
  trim (lit "AB") = lit "AB".
Proof.
  refine (proj2 (proj2 (extractTagId_nonempty_trimmed
    (JObj [(lit "x", JArr [JNull; JStr (lit "  "); JStr (lit " AB ")])])
    (lit "AB") _))).
  by vm_compute.
Defined.

(** X2. An id returned by [extractTagId] is the trim of a string that
    occurs as a value somewhere in the payload; a payload all of whose
    strings are blank yields none. *)
Theorem extractTagId_from_payload (data : json) :
  (∀ id, extractTagId data = Some id →
         ∃ s, s ∈ strings_in data ∧ id = trim s)
  ∧ (Forall (λ s, trim s = []) (strings_in data) → extractTagId data = None).
Proof.
  split.
  - by intros id (_ & _ & Hs)%extractTagId_source.
  - intros Hall. destruct (extractTagId data) as [id|] eqn:E; [|done].
    apply extractTagId_source in E as (Hne & _ & s & Hs & ->).
    by rewrite (proj1 (Forall_forall _ _) Hall s Hs) in Hne.
Qed.

Lemma extractTagId_from_payload_witness :
  extractTagId
    (JObj [ (lit "epc", JStr (lit "   "));
            (lit "rssi", JNum 0%float);
            (lit "tags", JArr [JStr []; JNull]) ]) = None.
Proof.
  apply extractTagId_from_payload.
  repeat (apply Forall_cons; split; [by vm_compute|]). constructor.
Defined.

Lemma extractTagId_string s :
  extractTagId (JStr s) = if decide (trim s = []) then None else Some (trim s).
Proof.
  cbn [extractTagId]. cbv zeta.
  destruct (decide (trim s = [])) as [->|Hne].
  - done.
  - destruct ((6 <=? length (trim s)) && test_hex (trim s)); [done|].
    by destruct (trim s).
Qed.

(** X3. On [null], a boolean or a number [extractTagId] returns nothing;
    on a string it returns the trimmed string whenever that is not empty:
    the test for hexadecimal digits changes nothing. *)
Theorem extractTagId_scalar :
  extractTagId JNull = None
  ∧ (∀ b, extractTagId (JBool b) = None)
  ∧ (∀ x, extractTagId (JNum x) = None)
  ∧ (∀ s, extractTagId (JStr s) =
            if decide (trim s = []) then None else Some (trim s)).
Proof.
  split_and!; try done. apply extractTagId_string.
Qed.

(** X4. On an array [extractTagId] returns the id of the first element
    that has one. *)
Theorem extractTagId_array (items : list json) :
  extractTagId (JArr items) = head (omap extractTagId items).
Proof.
  induction items as [|x items IH]; [done|].
  change (extractTagId (JArr (x :: items)))
    with (match keep (extractTagId x) with
          | Some id => Some id
          | None => extractTagId (JArr items)
          end).
  rewrite keep_extractTagId, IH. cbn [omap list_omap].
  by destruct (extractTagId x).
Qed.

Lemma foldl_accept_elem x cs : ∀ ids,
  x ∈ foldl accept ids cs ↔ x ∈ ids ∨ (Some x ∈ cs ∧ 4 ≤ length x).
Proof.
  induction cs as [|c cs IH]; intros ids; cbn [foldl].
  - rewrite elem_of_nil. tauto.
  - rewrite IH, elem_of_cons. clear IH.
    destruct c as [id|]; unfold accept.
    + destruct (Nat.leb_spec 4 (length id)) as [Hlen|Hlen]; cbn [andb].
      * case_bool_decide as Hin; cbn [negb].
        -- split; [tauto|]. intros [?|[[[= ->]|?] ?]]; tauto.
        -- rewrite elem_of_app, list_elem_of_singleton.
           split; [intros [[?| ->]|?]; tauto|].
           intros [?|[[[= ->]|?] ?]]; tauto.
      * split; [tauto|]. intros [?|[[[= ->]|?] ?]]; [tauto|lia|tauto].
    + split; [tauto|]. intros [?|[[?|?] ?]]; [tauto|done|tauto].
Qed.

Lemma all_ids_elem (data : json) (id : jsstring) :
  id ∈ extractAllTagIds data
  ↔ 4 ≤ length id
    ∧ (extractTagId data = Some id
       ∨ ∃ t, t ∈ tags_array data ∧ extractTagId t = Some id).
Proof.
  rewrite extractAllTagIds_spec. unfold all_ids_spec, candidates.
  rewrite foldl_accept_elem, elem_of_nil, elem_of_cons, list_elem_of_fmap.
  split.
  - intros [[]|[[[= ->] | (t & Ht & Hin)] Hlen]]; split; eauto.
  - intros [Hlen [Hm | (t & Ht & Hm)]]; right; split; eauto.
Qed.

(** X5. The ids that [extractAllTagIds] returns are exactly the ids of
    length at least 4 that [extractTagId] finds on the whole payload or on
    an element of its [tags] array. *)
Theorem extractAllTagIds_members (data : json) (id : jsstring) :
  id ∈ extractAllTagIds data
  ↔ 4 ≤ length id
    ∧ (extractTagId data = Some id
       ∨ ∃ t, t ∈ tags_array data ∧ extractTagId t = Some id).
Proof. apply all_ids_elem. Qed.

Lemma all_ids_NoDup data : NoDup (extractAllTagIds data).
Proof.
  rewrite extractAllTagIds_spec. apply foldl_accept_NoDup, NoDup_nil. done.
Qed.

Lemma all_ids_wf data id :
  id ∈ extractAllTagIds data → 4 ≤ length id ∧ trimmed id.
Proof.
  intros [Hlen Hsrc]%all_ids_elem. split; [done|].
  destruct Hsrc as [H|(t & _ & H)];
    by apply extractTagId_source in H as (_ & ? & _).
Qed.

End ExtractorMore.

Module AggregatorMore.
Import Extractor Aggregator ExtractorMore.

Lemma wrapped_text_ids (raw : jsstring) :
  extractAllTagIds (JObj [(lit "raw", JStr raw)]) =
    if 4 <=? length (trim raw) then [trim raw] else [].
Proof.
  assert (extractTagId (JObj [(lit "raw", JStr raw)])
          = extractTagId (JStr raw)) as Hmain.
  { rewrite ExtractorFacts.extractTagId_object.
    change (scan_preferidos [(lit "raw", JStr raw)] preferidos) with
      (@None jsstring).
    change (get [(lit "raw", JStr raw)] (lit "tag")) with (@None json).
    change (get [(lit "raw", JStr raw)] (lit "tags")) with (@None json).
    change (get [(lit "raw", JStr raw)] (lit "data")) with (@None json).
    cbn [or_else for_first fst snd]. rewrite keep_extractTagId.
    by destruct (extractTagId (JStr raw)). }
  unfold extractAllTagIds. rewrite Hmain.
  change (get [(lit "raw", JStr raw)] (lit "tags")) with (@None json).
  rewrite extractTagId_string.
  destruct (decide (trim raw = [])) as [->|Hne]; [done|].
  unfold add. destruct (trim raw) as [|c s] eqn:Ht; [done|].
  cbn [truthy_str andb].
  rewrite bool_decide_eq_false_2 by apply not_elem_of_empty.
  by destruct (4 <=? length (c :: s)).
Qed.

Lemma log_event_head e log : head (log_event e log) = Some e.
Proof.
  unfold log_event. destruct (maxEvents <? length (e :: log)) eqn:E; [|done].
  destruct log as [|e' log]; [done|]. done.
Qed.

(** X6. A message that is not JSON is not dropped: it is decoded as the
    object [{raw: text}], that object is the entry put at the head of the
    event log, and the trimmed text itself, when it has at least 4
    characters, is taken as the one tag id of the message. *)
Theorem undecodable_text_is_read_as_tag
    (JSON_parse : jsstring → option json) (raw : jsstring) :
  JSON_parse raw = None →
  decode JSON_parse raw = JObj [(lit "raw", JStr raw)]
  ∧ (∀ now st,
       head (events (processEvent JSON_parse now raw st)) =
         Some {| time := now; data := JObj [(lit "raw", JStr raw)] |})
  ∧ extractAllTagIds (decode JSON_parse raw) =
      if 4 <=? length (trim raw) then [trim raw] else [].
Proof.
  intros Hthrow.
  assert (decode JSON_parse raw = JObj [(lit "raw", JStr raw)]) as Hdec
    by (unfold decode; by rewrite Hthrow).
  split_and!; [done| |].
  - intros now st. rewrite AggregatorFacts.processEvent_events.
    rewrite log_event_head. unfold entry. simpl. by rewrite Hdec.
  - rewrite Hdec. apply wrapped_text_ids.
Qed.

Lemma undecodable_text_is_read_as_tag_witness :
  decode parse_throws (lit "  AAAA1111 ")
    = JObj [(lit "raw", JStr (lit "  AAAA1111 "))]
  ∧ extractAllTagIds (decode parse_throws (lit "  AAAA1111 "))
    = [lit "AAAA1111"].
Proof.
  destruct (undecodable_text_is_read_as_tag parse_throws (lit "  AAAA1111 ")
              eq_refl) as (Hd & _ & Hids).
  split; [exact Hd|exact Hids].
Defined.

Import AggregatorFacts LecturaViews TrimFacts.

Section WithDecoder.
Variable JSON_parse : jsstring → option json.

Local Abbreviation decode := (decode JSON_parse).
Local Abbreviation processEvent := (processEvent JSON_parse).
Local Abbreviation run := (run JSON_parse).

Lemma record_read_lookup now st t k :
  tagCounts (record_read now st t) !! k =
    if decide (k = t) then Some (observed now t (tagCounts st !! t))
    else tagCounts st !! k.
Proof.
  unfold record_read, observed.
  destruct (tagCounts st !! t) as [old|] eqn:Hold; simpl;
    (destruct (decide (k = t)) as [->|Hne];
       [by rewrite lookup_insert_eq|by rewrite lookup_insert_ne]).
Qed.

Lemma foldl_record_read_lookup now ids : ∀ st k,
  NoDup ids →
  tagCounts (foldl (record_read now) st ids) !! k =
    if decide (k ∈ ids) then Some (observed now k (tagCounts st !! k))
    else tagCounts st !! k.
Proof.
  induction ids as [|t ids IH]; intros st k Hnd; cbn [foldl].
  - by rewrite decide_False by apply not_elem_of_nil.
  - apply NoDup_cons in Hnd as [Hnin Hnd].
    rewrite IH by done. rewrite !record_read_lookup.
    destruct (decide (k = t)) as [->|Hne].
    + rewrite decide_False by done. by rewrite decide_True by by left.
    + destruct (decide (k ∈ ids)) as [Hin|Hin].
      * by rewrite decide_True by by right.
      * rewrite decide_False; [done|].
        intros [?|?]%elem_of_cons; done.
Qed.

Lemma processEvent_lookup now raw st k :
  tagCounts (processEvent now raw st) !! k =
    if decide (k ∈ extractAllTagIds (decode raw))
    then Some (observed now k (tagCounts st !! k))
    else tagCounts st !! k.
Proof.
  unfold Aggregator.processEvent.
  by rewrite foldl_record_read_lookup by apply all_ids_NoDup.
Qed.

(** X7. One message changes the tag table key by key: a key among the ids
    extracted from the message gets a new record with count 1, or its
    count raised by exactly one and [lastSeen] refreshed, however often the
    id occurs in the payload; every other key keeps its record. *)
Theorem processEvent_table_effect (now raw : jsstring) (st : Lectura)
    (k : jsstring) :
  tagCounts (processEvent now raw st) !! k =
    if decide (k ∈ extractAllTagIds (decode raw))
    then Some match tagCounts st !! k with
              | Some existing => {| tc_id := tc_id existing;
                                    count := S (count existing);
                                    lastSeen := now |}
              | None => {| tc_id := k; count := 1; lastSeen := now |}
              end
    else tagCounts st !! k.
Proof. apply processEvent_lookup. Qed.

Lemma step_wf_table st c :
  wf_table (tagCounts st) → wf_table (tagCounts (step JSON_parse st c)).
Proof.
  intros Hwf. destruct c as [now raw| |]; simpl; [|done|].
  - intros k r. rewrite processEvent_lookup.
    destruct (decide (k ∈ _)) as [Hin|Hin]; [|by apply Hwf].
    intros [= <-]. apply all_ids_wf in Hin as [Hlen Ht].
    destruct (tagCounts st !! k) as [old|] eqn:Hold; simpl.
    + destruct (Hwf k old Hold) as (? & ? & _). split_and!; [done|lia|done..].
    + split_and!; [done|lia|done..].
  - intros k r. by rewrite lookup_empty.
Qed.

Lemma run_wf_table calls : ∀ st,
  wf_table (tagCounts st) → wf_table (tagCounts (run calls st)).
Proof.
  induction calls as [|c calls IH]; intros st Hwf; simpl; [done|].
  by apply IH, step_wf_table.
Qed.

Lemma initial_wf_table : wf_table (tagCounts initial).
Proof. intros k r. simpl. by rewrite lookup_empty. Qed.

(** X8. In every state reached from the initial one, each record of the
    tag table carries its own key as [id] and a count of at least 1, and
    each key has at least 4 characters and no white space at either end. *)
Theorem tag_table_well_formed (calls : list call) (k : jsstring)
    (r : TagCount) :
  tagCounts (run calls initial) !! k = Some r →
  tc_id r = k ∧ 1 ≤ count r ∧ 4 ≤ length k ∧ trimmed k.
Proof. apply run_wf_table, initial_wf_table. Qed.

Lemma size_le_sum_counts (m : gmap jsstring TagCount) :
  (∀ k r, m !! k = Some r → 1 ≤ count r) → size m ≤ sum_counts m.
Proof.
  induction m as [|k r m Hk IH] using map_ind; intros Hpos.
  - by rewrite map_size_empty.
  - rewrite map_size_insert_None, sum_counts_insert_fresh by done.
    assert (1 ≤ count r) by (apply (Hpos k); by rewrite lookup_insert_eq).
    assert (size m ≤ sum_counts m).
    { apply IH. intros k' r' Hk'. apply (Hpos k').
      rewrite lookup_insert_ne; [done|]. intros ->. congruence. }
    lia.
Qed.

(** X9. In every state reached from the initial one the number of distinct
    tags does not exceed the total number of reads. *)
Theorem uniqueCount_le_totalReads (calls : list call) :
  uniqueCount (run calls initial) ≤ totalReads (run calls initial).
Proof.
  unfold uniqueCount. rewrite (run_counters JSON_parse calls initial).
  - apply size_le_sum_counts. intros k r Hr.
    by destruct (run_wf_table calls initial initial_wf_table k r Hr)
      as (_ & ? & _).
  - unfold sum_counts. simpl. by rewrite map_fold_empty.
Qed.

Lemma log_event_grows e log : length (log_event e log) ≤ S (length log).
Proof.
  unfold log_event. destruct (maxEvents <? length (e :: log)).
  - rewrite removelast_firstn_len, length_take. simpl. lia.
  - done.
Qed.

Lemma foldl_record_read_received now ids : ∀ st,
  eventsReceived (foldl (record_read now) st ids) = eventsReceived st.
Proof.
  induction ids as [|t ids IH]; intros st; simpl; [done|].
  rewrite IH. unfold record_read. by destruct (tagCounts st !! t).
Qed.

Lemma run_received calls : ∀ st,
  eventsReceived (run calls st) =
    eventsReceived st + length (List.filter is_message calls).
Proof.
  induction calls as [|c calls IH]; intros st; simpl; [lia|].
  unfold Aggregator.run in *. rewrite IH.
  destruct c as [now raw| |]; simpl; [|lia..].
  unfold Aggregator.processEvent. rewrite foldl_record_read_received.
  simpl. lia.
Qed.

(** X10. [eventsReceived] is the number of messages handled since the
    page was created: neither [clearEvents] nor [clearTags] resets it, and
    the event log never holds more entries than it counts. *)
Theorem eventsReceived_counts_messages (calls : list call) :
  eventsReceived (run calls initial) = length (List.filter is_message calls)
  ∧ length (events (run calls initial)) ≤ eventsReceived (run calls initial).
Proof.
  split; [by rewrite run_received|].
  assert (∀ cs st, length (events st) ≤ eventsReceived st →
            length (events (run cs st)) ≤ eventsReceived (run cs st)) as H.
  { induction cs as [|c cs IH]; intros st Hst; [done|].
    apply IH. destruct c as [now raw| |]; simpl; [|lia|done].
    rewrite processEvent_events.
    unfold Aggregator.processEvent. rewrite foldl_record_read_received.
    cbn [eventsReceived].
    pose proof (log_event_grows (entry JSON_parse (now, raw)) (events st)).
    lia. }
  apply H. simpl. lia.
Qed.

(** X11. A message never removes a record and never lowers a count: the
    record of a key that was present stays, with the same [id] and a count
    raised by at most one, and the number of distinct tags does not
    decrease. *)
Theorem processEvent_keeps_records (now raw : jsstring) (st : Lectura) :
  (∀ k r, tagCounts st !! k = Some r →
     ∃ r', tagCounts (processEvent now raw st) !! k = Some r'
           ∧ tc_id r' = tc_id r
           ∧ count r ≤ count r' ≤ S (count r))
  ∧ uniqueCount st ≤ uniqueCount (processEvent now raw st)
  ∧ totalReads st ≤ totalReads (processEvent now raw st).
Proof.
  split_and!.
  - intros k r Hr. rewrite processEvent_lookup, Hr.
    destruct (decide _); eexists; (split; [done|]); simpl;
      (split; [done|lia]).
  - unfold uniqueCount. rewrite <-!size_dom. apply subseteq_size.
    intros k [r Hr]%elem_of_dom. apply elem_of_dom.
    rewrite processEvent_lookup, Hr. by destruct (decide _).
  - unfold Aggregator.processEvent. rewrite foldl_record_read_total.
    simpl. lia.
Qed.

End WithDecoder.

Lemma processEvent_keeps_records_witness :
  ∃ r', tagCounts
          (processEvent parse_throws (lit "10:00:02") (lit "BBBB2222")
             (processEvent parse_throws (lit "10:00:01") (lit "AAAA1111")
                initial))
          !! lit "AAAA1111" = Some r'
        ∧ tc_id r' = lit "AAAA1111" ∧ 1 ≤ count r' ≤ 2.
Proof.
  refine (proj1 (processEvent_keeps_records parse_throws
    (lit "10:00:02") (lit "BBBB2222")
    (processEvent parse_throws (lit "10:00:01") (lit "AAAA1111") initial))
    (lit "AAAA1111")
    {| tc_id := lit "AAAA1111"; count := 1; lastSeen := lit "10:00:01" |} _).
  by vm_compute.
Defined.

Lemma tag_table_well_formed_witness :
  4 ≤ length (lit "AAAA1111").
Proof.
  refine (proj1 (proj2 (proj2 (tag_table_well_formed parse_throws
    [ProcessEvent (lit "10:00:01") (lit "AAAA1111"); ClearEvents;
     ProcessEvent (lit "10:00:02") (lit "AAAA1111")]
    (lit "AAAA1111")
    {| tc_id := lit "AAAA1111"; count := 2; lastSeen := lit "10:00:02" |}
    _)))).
  by vm_compute.
Defined.

End AggregatorMore.

(* ===================================================================== *)
(** ** Further properties of the channel *)
(* ===================================================================== *)

Module ChannelMore.
Import Channel ChannelLifecycle.

Lemma fire_signal_sound st cb :
  sseConnected (fire st cb) = true →
  es_open (fire st cb) || ws_open (fire st cb) = true.
Proof.
  destruct cb as [|retry| | |]; simpl; try done;
    unfold ws_onclose, ws_onerror, es_not_open, es_open; simpl;
    destruct (eventSource st) as [[]|] eqn:E; simpl; by rewrite ?E.
Qed.

(** X12. The merged signal is never stale: in every state reached by
    transport callbacks after [connectRealtime] opened both transports, if
    [sseConnected] is true then at least one transport is open. *)
Theorem signal_true_means_a_transport_is_open (cbs : list callback) :
  sseConnected (run cbs) = true →
  es_open (run cbs) || ws_open (run cbs) = true.
Proof.
  unfold run. destruct cbs as [|cb cbs _] using rev_ind; [done|].
  rewrite foldl_app. simpl. apply fire_signal_sound.
Qed.

Lemma signal_true_means_a_transport_is_open_witness :
  es_open (run [WsOpen; SseOpen; WsClose])
  || ws_open (run [WsOpen; SseOpen; WsClose]) = true.
Proof.
  by apply (signal_true_means_a_transport_is_open [WsOpen; SseOpen; WsClose]).
Defined.

Lemma no_ws_open_tracks_sse cbs :
  forallb (λ cb, negb (is_ws_open_callback cb)) cbs = true →
  sseConnected (run cbs) = es_open (run cbs).
Proof.
  unfold run. induction cbs as [|cb cbs IH] using rev_ind; [done|].
  rewrite forallb_app, andb_true_iff. intros [Hcbs Hcb].
  specialize (IH Hcbs). rewrite foldl_app. simpl.
  simpl in Hcb. rewrite andb_true_r in Hcb.
  set (st := foldl fire opened cbs) in *.
  destruct cb as [|retry| | |]; simpl; try done.
  - by destruct retry.
  - unfold ws_onclose, es_not_open, es_open in *. simpl.
    destruct (eventSource st) as [[]|] eqn:E; simpl; by rewrite ?E.
  - unfold ws_onerror, es_not_open, es_open in *. simpl.
    destruct (eventSource st) as [[]|] eqn:E; simpl; by rewrite ?E.
Qed.

Lemma ws_only_tracks_ws base events :
  base ≠ [] →
  forallb is_socket_event events = true →
  let p := foldl step (connectRealtime base false true fresh) events in
  closing p = 0 ∧ eventSource (conn p) = None
  ∧ sseConnected (conn p) = ws_open (conn p).
Proof.
  intros Hbase. destruct base as [|c base]; [done|]. simpl.
  induction events as [|e events IH] using rev_ind; [done|].
  rewrite forallb_app, andb_true_iff. intros [Hev He].
  destruct (IH Hev) as (Hcl & Hes & Hsig). rewrite foldl_app. simpl.
  destruct e as [cb| | | |]; try done; simpl.
  - destruct cb as [|retry| | |]; try done; simpl;
      unfold ws_onclose, ws_onerror, es_not_open; simpl; by rewrite Hes.
  - by rewrite Hcl.
  - by rewrite Hcl.
Qed.

(** X13. With one transport silent the signal follows the other: while the
    socket has never opened, [sseConnected] equals "the server-push stream
    is open"; and when the [EventSource] could not be constructed at the
    first connection of the page, it equals "the socket is open" after any
    socket events. *)
Theorem signal_tracks_the_live_transport :
  (∀ cbs,
     forallb (λ cb, negb (is_ws_open_callback cb)) cbs = true →
     sseConnected (run cbs) = es_open (run cbs))
  ∧ (∀ base events,
       base ≠ [] →
       forallb is_socket_event events = true →
       let p := foldl step (connectRealtime base false true fresh) events in
       sseConnected (conn p) = ws_open (conn p)).
Proof.
  split; [apply no_ws_open_tracks_sse|].
  intros base events Hb Hev. by apply ws_only_tracks_ws.
Qed.

Lemma signal_tracks_the_live_transport_witness :
  sseConnected (run [SseOpen; WsError; SseError true; SseOpen]) = true
  ∧ sseConnected
      (conn (foldl step (connectRealtime (lit "http://h") false true fresh)
               [Current WsOpen; LateClose; Current WsClose])) = false.
Proof.
  destruct signal_tracks_the_live_transport as [Hsse Hws]. split.
  - by rewrite (Hsse [SseOpen; WsError; SseError true; SseOpen]).
  - by rewrite (Hws (lit "http://h")
                  [Current WsOpen; LateClose; Current WsClose]).
Defined.

Lemma late_drop_signal_sound st :
  (sseConnected st = true → es_open st || ws_open st = true) →
  (sseConnected (ws_onclose st) = true →
   es_open (ws_onclose st) || ws_open (ws_onclose st) = true)
  ∧ (sseConnected (ws_onerror st) = true →
     es_open (ws_onerror st) || ws_open (ws_onerror st) = true).
Proof.
  intros Hst. unfold ws_onclose, ws_onerror, es_not_open.
  by destruct (eventSource st) as [[]|] eqn:E.
Qed.

Lemma step_signal_sound p e :
  (sseConnected (conn p) = true →
   es_open (conn p) || ws_open (conn p) = true) →
  sseConnected (conn (step p e)) = true →
  es_open (conn (step p e)) || ws_open (conn (step p e)) = true.
Proof.
  intros Hp. destruct e as [cb| | | |base es_ok ws_ok]; simpl.
  - apply fire_signal_sound.
  - destruct (closing p =? 0); [done|]. simpl.
    by apply late_drop_signal_sound.
  - destruct (closing p =? 0); [done|]. simpl.
    by apply late_drop_signal_sound.
  - done.
  - unfold connectRealtime. by destruct base, es_ok, ws_ok.
Qed.

(** X14. Over the whole life of the page (connects, disconnects, transport
    callbacks, and the late error and close events of sockets closed by an
    earlier [disconnectRealtime]) [sseConnected] is true only while a
    transport is open, and calling [disconnectRealtime] twice is the same
    as calling it once and leaves the signal false.  The converse
    protection does not carry over a reconnect: when the socket of the
    previous connection closes after the new socket opened, its handler
    lowers the signal although the new socket is open. *)
Theorem reconnect_lifecycle :
  (∀ events,
     sseConnected (conn (play events)) = true →
     es_open (conn (play events)) || ws_open (conn (play events)) = true)
  ∧ (∀ p, disconnectRealtime (disconnectRealtime p) = disconnectRealtime p
          ∧ sseConnected (conn (disconnectRealtime p)) = false)
  ∧ (∀ base, base ≠ [] →
       let p := play [ Connect base true true; Current WsOpen;
                       Connect base true true; Current WsOpen; LateClose ] in
       ws_open (conn p) = true ∧ sseConnected (conn p) = false).
Proof.
  split_and!.
  - intros events. unfold play.
    induction events as [|e events IH] using rev_ind; [done|].
    rewrite foldl_app. simpl. by apply step_signal_sound.
  - intros p. unfold disconnectRealtime. simpl. split; [|done].
    f_equal. unfold close_pending. simpl. lia.
  - intros base Hb. by destruct base.
Qed.

Lemma reconnect_lifecycle_witness :
  es_open (conn (play [ Connect (lit "http://h") true true; Current SseOpen;
                        Connect (lit "http://h") true true; Current WsOpen;
                        LateClose; Current SseOpen ]))
  || ws_open (conn (play [ Connect (lit "http://h") true true;
                           Current SseOpen;
                           Connect (lit "http://h") true true;
                           Current WsOpen; LateClose; Current SseOpen ]))
  = true.
Proof.
  apply (proj1 reconnect_lifecycle). reflexivity.
Defined.

End ChannelMore.

(* ===================================================================== *)
(** ** Further properties of the reconciliation engine *)
(* ===================================================================== *)

Module ReconciliationMore.
Import Maleta MaletaReads ReconciliationFacts TrimFacts.

(** *** The simulated read set *)

Lemma cons_head_Forall (P : jsstring → Prop) c pieces :
  (∀ l, P l → P (c :: l)) → P [c] →
  Forall P pieces → Forall P (cons_head c pieces).
Proof.
  intros Hc H1 Hall. destruct Hall as [|l ls Hl Hls]; simpl.
  - by repeat constructor.
  - constructor; [by apply Hc|done].
Qed.

Lemma split_seps_from_no_sep s : ∀ b,
  Forall (Forall (λ c, is_sep c = false)) (split_seps_from b s).
Proof.
  induction s as [|c s IH]; intros b; simpl.
  - by repeat constructor.
  - destruct (is_sep c) eqn:Hc.
    + destruct b; [apply IH|]. constructor; [constructor|apply IH].
    + apply cons_head_Forall; [|by repeat constructor|apply IH].
      intros l Hl. by constructor.
Qed.

Lemma trim_Forall (P : N → Prop) s : Forall P s → Forall P (trim s).
Proof.
  intros Hs. destruct (trim_decomp s) as (a & b & Heq & _).
  rewrite Heq in Hs. by apply Forall_app in Hs as [_ [? _]%Forall_app].
Qed.

(** X15. Every tag of the simulated read set is non-empty, has no white
    space at either end and holds no separator (comma, semicolon, line
    break); a blank input gives the empty read set. *)
Theorem simulatedReadTags_clean (input : jsstring) :
  (∀ t, t ∈ simulatedReadTags input →
        t ≠ [] ∧ trimmed t ∧ Forall (λ c, is_sep c = false) t)
  ∧ (trim input = [] → simulatedReadTags input = []).
Proof.
  unfold simulatedReadTags. split.
  - intros t Ht. destruct (trim input) as [|c s] eqn:Hraw; [by inversion Ht|].
    cbn [truthy_str negb] in Ht.
    apply list_elem_of_In, List.filter_In in Ht as [Hin Hlen].
    apply List.in_map_iff in Hin as (piece & <- & Hp).
    split_and!.
    + by apply ReconciliationFacts.length_pos_nonempty in Hlen.
    + apply trim_trimmed.
    + apply trim_Forall.
      apply (proj1 (Forall_forall _ _) (split_seps_from_no_sep (c :: s) false)).
      by apply list_elem_of_In.
  - by intros ->.
Qed.

Lemma simulatedReadTags_clean_witness :
  lit "B2" ≠ [] ∧ trimmed (lit "B2")
  ∧ Forall (λ c, is_sep c = false) (lit "B2").
Proof.
  apply (proj1 (simulatedReadTags_clean
                  (lit " A1, B2 ;;" ++ [CR; LF] ++ lit "C3,"))).
  assert (simulatedReadTags (lit " A1, B2 ;;" ++ [CR; LF] ++ lit "C3,")
          = [lit "A1"; lit "B2"; lit "C3"]) as -> by (by vm_compute).
  apply elem_of_cons. right. apply elem_of_cons. by left.
Defined.

(** *** Unlisted reads *)

Lemma set_add_NoDup acc r : NoDup acc → NoDup (set_add acc r).
Proof.
  intros Hnd. unfold set_add. case_bool_decide; [done|].
  apply NoDup_app. split_and!; [done| |apply NoDup_singleton].
  intros x Hx ->%list_elem_of_singleton. done.
Qed.

Lemma elem_of_set_add acc r x : x ∈ set_add acc r ↔ x ∈ acc ∨ x = r.
Proof.
  unfold set_add. case_bool_decide.
  - split; [tauto|]. by intros [?| ->].
  - by rewrite elem_of_app, list_elem_of_singleton.
Qed.

Lemma foldl_set_add (cond : jsstring → bool) read : ∀ acc,
  NoDup acc →
  NoDup (foldl (λ u r, if cond r then set_add u r else u) acc read)
  ∧ ∀ x, x ∈ foldl (λ u r, if cond r then set_add u r else u) acc read
         ↔ x ∈ acc ∨ (x ∈ read ∧ cond x = true).
Proof.
  induction read as [|r read IH]; intros acc Hnd; cbn [foldl].
  - split; [done|]. intros x. rewrite elem_of_nil. tauto.
  - destruct (cond r) eqn:Hr.
    + destruct (IH (set_add acc r) (set_add_NoDup _ _ Hnd)) as [Hn Hx].
      split; [done|]. intros x. rewrite Hx, elem_of_set_add, elem_of_cons.
      split; [intros [[?| ->]|[? ?]]; tauto|].
      intros [?|[[->|?] ?]]; tauto.
    + destruct (IH acc Hnd) as [Hn Hx].
      split; [done|]. intros x. rewrite Hx, elem_of_cons.
      split; [tauto|]. intros [?|[[->|?] ?]]; [tauto|congruence|tauto].
Qed.

(** X16. [extraUnlistedTags] lists, without repetition, exactly the
    non-empty reads that are the trimmed master or product tag of no case
    (and nothing when there is no case); it is non-empty exactly when
    [hasUnknownTagRead] holds. *)
Theorem extraUnlistedTags_spec (maletas : list MaletaItem)
    (read : list jsstring) :
  NoDup (extraUnlistedTags maletas read)
  ∧ (∀ x, x ∈ extraUnlistedTags maletas read
          ↔ maletas ≠ [] ∧ x ∈ read ∧ unlisted maletas x)
  ∧ (extraUnlistedTags maletas read ≠ []
     ↔ hasUnknownTagRead maletas read = true).
Proof.
  unfold extraUnlistedTags.
  destruct maletas as [|m ms].
  { split_and!; [constructor| |done].
    intros x. rewrite elem_of_nil. naive_solver. }
  set (maletas := m :: ms).
  assert ((length maletas =? 0) = false) as -> by done.
  assert (maletas ≠ []) as Hne0 by done. cbv zeta.
  destruct (foldl_set_add
    (λ r, (0 <? length r)
          && negb (bool_decide (r ∈ getExpectedTagUnion maletas)))
    read [] (NoDup_nil_2)) as [Hnd Hx].
  assert (∀ x, (0 <? length x)
               && negb (bool_decide (x ∈ getExpectedTagUnion maletas)) = true
               ↔ unlisted maletas x) as Hcond.
  { intros x. unfold unlisted.
    by rewrite andb_true_iff, negb_true_iff, bool_decide_eq_false,
      length_pos_nonempty, elem_of_expected_union. }
  assert (∀ x, x ∈ foldl (λ u r,
                 if (0 <? length r)
                    && negb (bool_decide (r ∈ getExpectedTagUnion maletas))
                 then set_add u r else u) [] read
               ↔ x ∈ read ∧ unlisted maletas x) as Hmem.
  { intros x. rewrite Hx, elem_of_nil, Hcond. tauto. }
  split_and!; [done| |].
  - intros x. rewrite Hmem. tauto.
  - rewrite (hasUnknownTagRead_spec maletas read) by done.
    rewrite Exists_exists. split.
    + intros Hne. destruct (foldl _ _ _) as [|x xs]; [done|].
      exists x. apply Hmem. by left.
    + intros (x & Hin & Hu) Hnil.
      pose proof (proj2 (Hmem x) (conj Hin Hu)) as H.
      rewrite Hnil in H. by inversion H.
Qed.

(** *** Progress and missing tags *)

Lemma filter_partition_length {A} (f : A → bool) l :
  length (List.filter f l) + length (List.filter (λ x, negb (f x)) l)
  = length l.
Proof.
  induction l as [|x l IH]; simpl; [done|].
  destruct (f x); simpl; lia.
Qed.

Lemma status_green_iff m read :
  getMaletaStatus m read = green ↔ ¬ has_expired m ∧ ¬ has_missing read m.
Proof.
  rewrite getMaletaStatus_spec. unfold case_status_spec.
  repeat case_decide; naive_solver.
Qed.

Lemma status_blue_iff m read :
  getMaletaStatus m read = blue ↔ ¬ has_expired m ∧ has_missing read m.
Proof.
  rewrite getMaletaStatus_spec. unfold case_status_spec.
  repeat case_decide; naive_solver.
Qed.

(** X17. The progress of a case and its missing tags split the expected
    list: read + number of missing = total = 1 + number of product tags;
    and when read = total and the case has no expired tag its status is
    complete. *)
Theorem progress_and_missing (m : MaletaItem) (read : list jsstring) :
  let '(readCount, total) := getMaletaProgress m read in
  readCount + length (getMaletaMissing m read) = total
  ∧ total = S (length (productRfids m))
  ∧ (readCount = total → ¬ has_expired m → getMaletaStatus m read = green).
Proof.
  unfold getMaletaProgress, getMaletaMissing.
  set (expected := map trim (masterRfid m :: productRfids m)).
  pose proof (filter_partition_length (λ e, includes read e) expected) as Hp.
  cbv beta in Hp.
  split_and!; [done|unfold expected; by rewrite length_map|].
  intros Hall Hexp. apply status_green_iff. split; [done|].
  intros Hmiss. apply has_missing_elem in Hmiss as (t & Ht & Hne & Hnr).
  assert (t ∈ List.filter (λ e, negb (includes read e)) expected) as Hin.
  { apply list_elem_of_In, List.filter_In. split; [by apply list_elem_of_In|].
    unfold includes. by rewrite negb_true_iff, bool_decide_eq_false. }
  clearbody expected. rewrite Hall in Hp.
  destruct (List.filter (λ e, negb (includes read e)) expected);
    [by inversion Hin|]. cbn [length] in Hp. lia.
Qed.

(** X18. Reading more never makes a case worse: with a larger read set an
    expired case stays expired, a complete case stays complete, and an
    incomplete case stays incomplete or becomes complete. *)
Theorem more_reads_never_hurt (m : MaletaItem) (read read' : list jsstring) :
  (∀ x, x ∈ read → x ∈ read') →
  (getMaletaStatus m read = red ↔ getMaletaStatus m read' = red)
  ∧ (getMaletaStatus m read = green → getMaletaStatus m read' = green)
  ∧ (getMaletaStatus m read = blue →
     getMaletaStatus m read' = blue ∨ getMaletaStatus m read' = green).
Proof.
  intros Hsub.
  assert (has_missing read' m → has_missing read m) as Hmono.
  { rewrite !has_missing_elem. intros (t & ? & ? & Hn). exists t.
    split_and!; [done..|]. intros ?. by apply Hn, Hsub. }
  rewrite !status_red_iff, !status_green_iff, !status_blue_iff.
  split_and!; [done|tauto|].
  intros [He _]. destruct (decide (has_missing read' m)); tauto.
Qed.

Lemma more_reads_never_hurt_witness :
  let m := {| item_id := lit "a"; masterRfid := lit "M";
              productRfids := [lit "A"; lit "B"];
              createdAt := lit "t"; expiredProductRfids := None |} in
  getMaletaStatus m [lit "M"; lit "A"; lit "X"; lit "B"] = blue
  ∨ getMaletaStatus m [lit "M"; lit "A"; lit "X"; lit "B"] = green.
Proof.
  intros m.
  refine (proj2 (proj2 (more_reads_never_hurt m [lit "M"; lit "A"]
                          [lit "M"; lit "A"; lit "X"; lit "B"] _)) _).
  - intros x. rewrite !elem_of_cons. tauto.
  - by vm_compute.
Defined.

(** *** The aggregate status *)

Lemma filter_length_all {A} (f : A → bool) l :
  length (List.filter f l) = length l ↔ Forall (λ x, f x = true) l.
Proof.
  induction l as [|x l IH]; simpl.
  - split; [constructor|done].
  - rewrite Forall_cons. pose proof (filter_length_le f l) as Hle.
    destruct (f x); simpl.
    + rewrite <-IH. split; [intros ?; split; [done|lia]|intros [_ ?]; lia].
    + split; [lia|by intros [? _]].
Qed.

(** X19. The aggregate status is expired exactly when some case has an
    expired tag; anomalous exactly when no case has one and some read is
    unlisted; and complete exactly when every case is complete
    ([completedMaletasCount] equals the number of cases) and no read is
    unlisted. *)
Theorem aggregate_status_cases (maletas : list MaletaItem)
    (read : list jsstring) :
  (generalSemaphoreStatus maletas read = red ↔ Exists has_expired maletas)
  ∧ (generalSemaphoreStatus maletas read = yellow
     ↔ ¬ Exists has_expired maletas ∧ hasUnknownTagRead maletas read = true)
  ∧ (generalSemaphoreStatus maletas read = green
     ↔ completedMaletasCount maletas read = length maletas
       ∧ hasUnknownTagRead maletas read = false).
Proof.
  rewrite generalSemaphoreStatus_spec. unfold general_status_spec.
  unfold completedMaletasCount. rewrite filter_length_all.
  destruct (decide (maletas = [])) as [->|Hne].
  { split_and!.
    - split; [done|by intros ?%Exists_nil].
    - split; [done|by intros [_ ?]].
    - split; [intros _; split; [constructor|done]|done]. }
  pose proof (hasUnknownTagRead_spec maletas read Hne) as Hunk.
  assert (Forall (λ m, bool_decide (getMaletaStatus m read = green) = true)
                 maletas
          ↔ ¬ Exists has_expired maletas
            ∧ ¬ Exists (λ m, getMaletaStatus m read = blue) maletas) as Hall.
  { rewrite !Forall_forall, !Exists_exists. split.
    - intros Hg. split; intros (m & Hin & Hm).
      + apply status_red_iff with (read := read) in Hm.
        specialize (Hg m Hin). apply bool_decide_eq_true in Hg. congruence.
      + specialize (Hg m Hin). apply bool_decide_eq_true in Hg. congruence.
    - intros [Hr Hb] m Hin. apply bool_decide_eq_true.
      destruct (getMaletaStatus m read) eqn:E; try done.
      + exfalso. apply Hr. exists m. split; [done|].
        by apply (status_red_iff m read).
      + exfalso. apply Hb. by exists m.
      + by apply status_never_yellow in E. }
  destruct (decide (Exists has_expired maletas)) as [He|He].
  { split_and!.
    - done.
    - split; [done|by intros [? _]].
    - split; [done|]. intros [Hf _]. by apply Hall in Hf as [? _]. }
  destruct (decide (Exists (unlisted maletas) read)) as [Hx|Hx].
  { assert (hasUnknownTagRead maletas read = true) as Hu by by apply Hunk.
    split_and!.
    - done.
    - done.
    - split; [done|]. intros [_ ?]. congruence. }
  assert (hasUnknownTagRead maletas read = false) as Hu.
  { apply not_true_is_false. intros ?. by apply Hx, Hunk. }
  destruct (decide (Exists (λ m, getMaletaStatus m read = blue) maletas))
    as [Hb|Hb].
  - split_and!.
    + done.
    + split; [done|]. intros [_ ?]. congruence.
    + split; [done|]. intros [Hf _]. by apply Hall in Hf as [_ ?].
  - split_and!.
    + done.
    + split; [done|]. intros [_ ?]. congruence.
    + split; [|done]. intros _. split; [by apply Hall|done].
Qed.

End ReconciliationMore.
